(** * ISS dashboard: the element-line scan and the position history

    A shallow embedding of [iss_dashboard.py]: the scan of the CelesTrak
    feed done by [fetch_iss_tle], and the refresh cycle [update_position]
    that merges one position fix into [st.session_state.tracking_data] and
    redraws the three placeholders.

    Conventions of the embedding:
    - a Python [str] is a list of characters, each a code point below 256;
      [str.isspace], and with it [str.strip], is modelled on all of them;
      [str.upper] is modelled on ASCII text, where it acts on the letters
      a-z: what is stated about the test of the scan is stated for the
      texts of [isascii], as the CelesTrak feed is;
    - the HTTP request and the Skyfield propagator are outside the program:
      one refresh cycle receives their answers as a [World];
    - a data frame is the list of its rows, oldest first. *)

From Stdlib Require Import ZArith Ascii String.
From stdpp Require Import base decidable option list sets sorting.

Set Warnings "-clear-no-such-hyp".

Local Open Scope nat_scope.

(** ** Text *)

Module Text.

Abbreviation str := (list ascii).

(** A literal of the source. *)
Definition py (s : string) : str := list_ascii_of_string s.

(** [c.isspace()] on the code points below 256: tab, line feed, vertical
    tab, form feed, carriage return, the four separators 0x1c-0x1f, the
    blank, the next-line control 0x85 and the no-break space 0xa0. *)
Definition is_space (c : ascii) : bool :=
  let n := nat_of_ascii c in
  ((9 <=? n) && (n <=? 13)) || ((28 <=? n) && (n <=? 32)) ||
  (n =? 133) || (n =? 160).

(** [s.isascii()] *)
Definition isascii (s : str) : bool :=
  forallb (λ c, nat_of_ascii c <? 128) s.

Definition upper_char (c : ascii) : ascii :=
  let n := nat_of_ascii c in
  if (97 <=? n) && (n <=? 122) then ascii_of_nat (n - 32) else c.

Definition lower_char (c : ascii) : ascii :=
  let n := nat_of_ascii c in
  if (65 <=? n) && (n <=? 90) then ascii_of_nat (n + 32) else c.

(** [s.upper()] and [s.lower()], for [s] in ASCII *)
Definition upper (s : str) : str := map upper_char s.
Definition lower (s : str) : str := map lower_char s.

(** [s.lstrip()], [s.rstrip()], [s.strip()] *)
Fixpoint lstrip (s : str) : str :=
  match s with
  | [] => []
  | c :: s' => if is_space c then lstrip s' else s
  end.

Definition rstrip (s : str) : str := rev (lstrip (rev s)).

Definition strip (s : str) : str := rstrip (lstrip s).

(** [s.split(sep)] for a separator of one character: the result is never
    empty, [''.split(sep) = ['']]. *)
Fixpoint split (sep : ascii) (s : str) : list str :=
  match s with
  | [] => [[]]
  | c :: s' =>
      if Ascii.eqb c sep then [] :: split sep s'
      else match split sep s' with
           | l :: ls => (c :: l) :: ls
           | [] => [[c]]
           end
  end.

(** [s.startswith(p)] *)
Fixpoint startswith (p s : str) : bool :=
  match p, s with
  | [], _ => true
  | _ :: _, [] => false
  | a :: p', b :: s' => Ascii.eqb a b && startswith p' s'
  end.

(** [sub in s] *)
Fixpoint contains (sub s : str) : bool :=
  startswith sub s ||
  match s with
  | [] => false
  | _ :: s' => contains sub s'
  end.

Definition newline : ascii := ascii_of_nat 10.

End Text.

Import Text.

(** ** The element-line scan of [fetch_iss_tle] *)

(** The test of line 24:
    ['ISS' in line.upper() or 'ZARYA' in line.upper()]. *)
Definition line_matches (line : str) : bool :=
  contains (py "ISS") (upper line) || contains (py "ZARYA") (upper line).

(** The loop of lines 23-26 over [enumerate(lines)]: [rest] is what is left
    to enumerate and [i] the index of its head.  A matching line with fewer
    than two lines after it does not end the loop.  Under the guard
    [i + 2 < len(lines)] both subscripts are in range. *)
Fixpoint scan_from (lines : list str) (i : nat) (rest : list str)
  : option (str * str) :=
  match rest with
  | [] => None
  | line :: rest' =>
      if line_matches line then
        if i + 2 <? length lines then
          match lines !! (i + 1), lines !! (i + 2) with
          | Some l1, Some l2 => Some (strip l1, strip l2)
          | _, _ => None
          end
        else scan_from lines (S i) rest'
      else scan_from lines (S i) rest'
  end.

(** [lines = response.text.strip().split('\n')] *)
Definition feed_lines (text : str) : list str := split newline (strip text).

(** Lines 22-27: the body of the [try] once the text is there. *)
Definition scan_text (text : str) : option (str * str) :=
  let lines := feed_lines text in
  scan_from lines 0 lines.

(** ** The position history *)

Section History.

(** The float readings of a fix.  The history only ever compares them, so
    the embedding keeps their type open: any type with a decidable
    equality (the one [drop_duplicates] uses on a column). *)
Context {Reading : Type} `{!EqDecision Reading}.

(** The dictionary returned by [get_current_iss_position], which is also
    the row added to the frame; [timestamp] counts microseconds. *)
Record PositionFix := mkFix {
  timestamp : Z;
  latitude : Reading;
  longitude : Reading;
  altitude : Reading
}.

#[global] Instance PositionFix_eq_dec : EqDecision PositionFix.
Proof. solve_decision. Defined.

(** A frame with the columns timestamp, latitude, longitude, altitude. *)
Abbreviation DataFrame := (list PositionFix).

(** [pd.concat([a, b])] *)
Definition concat (a b : DataFrame) : DataFrame := a ++ b.

(** [df.duplicated()], with its default [keep='first']: a row is marked
    when an equal row stands before it. *)
Fixpoint duplicated_from (seen : list PositionFix) (df : DataFrame)
  : list bool :=
  match df with
  | [] => []
  | r :: df' => bool_decide (r ∈ seen) :: duplicated_from (r :: seen) df'
  end.

Definition duplicated (df : DataFrame) : list bool := duplicated_from [] df.

(** [df[~mask]]: the rows whose mark is [False]. *)
Definition rows_not_marked (df : DataFrame) (mask : list bool) : DataFrame :=
  fst <$> filter (λ rm, snd rm = false) (zip df mask).

(** [df.drop_duplicates()], which is [df[~df.duplicated()]]. *)
Definition drop_duplicates (df : DataFrame) : DataFrame :=
  rows_not_marked df (duplicated df).

(** [df.tail(n)] for [n > 0]: the last [n] rows, all of them when the frame
    is shorter. *)
Definition tail (n : nat) (df : DataFrame) : DataFrame :=
  drop (length df - n) df.

(** Lines 98-100. *)
Definition merge (df : DataFrame) (position : PositionFix) : DataFrame :=
  tail 20 (drop_duplicates (concat df [position])).

(** ** One refresh cycle *)

(** What [requests.get] and [raise_for_status] give: the text of the feed,
    or a [RequestException] with its message. *)
Inductive Response :=
  | HttpOk (text : str)
  | RequestException (msg : str).

(** What [get_current_iss_position] gives on two element lines: the
    dictionary of the fix, or the exception Skyfield raises on them. *)
Inductive Propagation :=
  | Position (position : PositionFix)
  | Raises (exc : str).

(** The answers of the outside world during one cycle. *)
Record World := mkWorld {
  response : Response;
  get_current_iss_position : str -> str -> Propagation
}.

(** What an observer of the page sees: the session's frame, what each of
    the three placeholders shows (the frame drawn on the map, the fix of
    the telemetry panel, the frame listed by the table, which pandas sorts
    newest first), and the boxes written by [st.error]. *)
Record Dashboard := mkDashboard {
  tracking_data : DataFrame;
  map_placeholder : option DataFrame;
  telemetry_placeholder : option PositionFix;
  table_placeholder : option DataFrame;
  errors : list str
}.

(** Lines 55-69: an empty frame and three empty placeholders. *)
Definition session_start : Dashboard :=
  {| tracking_data := [];
     map_placeholder := None;
     telemetry_placeholder := None;
     table_placeholder := None;
     errors := [] |}.

(** [st.error(msg)] *)
Definition st_error (msg : str) (s : Dashboard) : Dashboard :=
  {| tracking_data := tracking_data s;
     map_placeholder := map_placeholder s;
     telemetry_placeholder := telemetry_placeholder s;
     table_placeholder := table_placeholder s;
     errors := errors s ++ [msg] |}.

(** Lines 16-30.  The [except] clause shows the message and returns
    [None]. *)
Definition fetch_iss_tle (r : Response) (s : Dashboard)
  : option (str * str) * Dashboard :=
  match r with
  | HttpOk text => (scan_text text, s)
  | RequestException e =>
      (None, st_error (py "Error fetching TLE data: " ++ e) s)
  end.

(** How a call ends: it returns, or an exception leaves it. *)
Inductive Outcome :=
  | Returns (s : Dashboard)
  | Escapes (exc : str) (s : Dashboard).

Definition final (o : Outcome) : Dashboard :=
  match o with
  | Returns s => s
  | Escapes _ s => s
  end.

(** Lines 84-140.  [if tle_data:] holds for every pair, and nothing stands
    around the call of [get_current_iss_position] to catch what it
    raises. *)
Definition update_position (w : World) (s : Dashboard) : Outcome :=
  let (tle_data, s1) := fetch_iss_tle (response w) s in
  match tle_data with
  | Some (line1, line2) =>
      match get_current_iss_position w line1 line2 with
      | Raises exc => Escapes exc s1
      | Position position =>
          let data := merge (tracking_data s1) position in
          Returns {| tracking_data := data;
                     map_placeholder := Some data;
                     telemetry_placeholder := Some position;
                     table_placeholder := Some data;
                     errors := errors s1 |}
      end
  | None => Returns s1
  end.

(** Lines 80-82, [while auto_update: update_position(...)], run for as many
    cycles as there are worlds in [ws]: an exception that leaves a cycle
    leaves the loop. *)
Fixpoint main_loop (ws : list World) (s : Dashboard) : Outcome :=
  match ws with
  | [] => Returns s
  | w :: ws' =>
      match update_position w s with
      | Returns s' => main_loop ws' s'
      | Escapes exc s' => Escapes exc s'
      end
  end.

(** ** The vocabulary of the specification *)

(** The three error kinds. *)
Inductive ErrorKind := Transport | NotFound | Invalid.

(** What happens inside a cycle: it produces a fix, or one of the three
    errors arises. *)
Inductive CycleResult :=
  | Fix (position : PositionFix)
  | Fails (kind : ErrorKind).

Definition cycle_result (w : World) : CycleResult :=
  match response w with
  | RequestException _ => Fails Transport
  | HttpOk text =>
      match scan_text text with
      | None => Fails NotFound
      | Some (line1, line2) =>
          match get_current_iss_position w line1 line2 with
          | Raises _ => Fails Invalid
          | Position position => Fix position
          end
      end
  end.

(** The merge as the specification words it: append the new fix, remove
    the prior entries equal to it, keep the most recent [n]. *)
Definition merge_reference (n : nat) (df : DataFrame) (new : PositionFix)
  : DataFrame :=
  let prior := filter (λ r, r ≠ new) df in
  tail n (prior ++ [new]).

End History.

Arguments PositionFix : clear implicits.
Arguments Propagation : clear implicits.
Arguments World : clear implicits.
Arguments Dashboard : clear implicits.
Arguments Outcome : clear implicits.
Arguments CycleResult : clear implicits.

Abbreviation DataFrame Reading := (list (PositionFix Reading)).

(** The text of the answer, if there is one, is ASCII. *)
Definition ascii_response {Reading} (w : World Reading) : bool :=
  match response w with
  | HttpOk text => isascii text
  | RequestException _ => true
  end.

Section PropagationFailure.

(** Which readings are not numbers. *)
Context {Reading : Type} (isnan : Reading → bool).

(** The fix Skyfield gives when SGP4 reports an error on the element
    lines: [get_current_iss_position] returns, with readings that are not
    numbers. *)
Definition nan_fix (f : PositionFix Reading) : bool :=
  isnan (latitude f) || isnan (longitude f) || isnan (altitude f).

(** The error kind of the specification that arises in a cycle, if any.
    The set is invalid when the propagator raises on it, and also when the
    propagation fails numerically and returns such a fix. *)
Definition cycle_error (w : World Reading) : option ErrorKind :=
  match cycle_result w with
  | Fails kind => Some kind
  | Fix f => if nan_fix f then Some Invalid else None
  end.

End PropagationFailure.

(** The lines of the source text itself. *)
Definition text_lines (text : str) : list str := split newline text.

(** The scan as the specification words it: the first line in which the
    object name occurs, whatever the case, and the two lines after it. *)
Definition name_matches_reference (name line : str) : bool :=
  contains (upper name) (upper line).

Fixpoint fetchElements_reference_lines (name : str) (lines : list str)
  : option (str * str) :=
  match lines with
  | [] => None
  | line :: rest =>
      if name_matches_reference name line then
        match rest with
        | l1 :: l2 :: _ => Some (l1, l2)
        | _ => None
        end
      else fetchElements_reference_lines name rest
  end.

Definition fetchElements_reference (name text : str) : option (str * str) :=
  fetchElements_reference_lines name (text_lines text).

(** A well-formed element line: 69 columns, the line number in the first
    and the checksum digit in the last. *)
Definition is_digit (c : ascii) : bool :=
  let n := nat_of_ascii c in (48 <=? n) && (n <=? 57).

Definition element_line (number : ascii) (l : str) : bool :=
  (length l =? 69) &&
  match l with
  | [] => false
  | c :: _ => Ascii.eqb c number
  end &&
  match last l with
  | None => false
  | Some c => is_digit c
  end.

(** A line of white space only, and a line with white space around it. *)
Definition blank (l : str) : Prop := Forall (λ c, is_space c = true) l.

Definition padded (r l : str) : Prop :=
  ∃ p q, blank p ∧ blank q ∧ r = p ++ l ++ q.

(** A pattern without white space, such as the two of the scan. *)
Definition solid (sub : str) : Prop :=
  sub ≠ [] ∧ Forall (λ c, is_space c = false) sub.

(** The lines [l1] and [l2] follow the first matching line of [lines], and
    a line that is not blank stands at or after [l2]; [a] and [b] are
    their stripped forms. *)
Definition scan_finds (lines : list str) (a b : str) : Prop :=
  ∃ i hdr l1 l2 k r,
    lines !! i = Some hdr ∧ line_matches hdr = true ∧
    (∀ j l, j < i → lines !! j = Some l → line_matches l = false) ∧
    lines !! (i + 1) = Some l1 ∧ lines !! (i + 2) = Some l2 ∧
    a = strip l1 ∧ b = strip l2 ∧
    i + 2 ≤ k ∧ lines !! k = Some r ∧ ¬ blank r.

(** ** The script run *)

Section Script.

Context {Reading : Type} `{!EqDecision Reading}.

(** Lines 55-69 at the start of a run of the script: the frame of the
    session when the key is there, an empty one otherwise; the three
    placeholders are created empty and no error box is shown yet. *)
Definition page_start (session : option (DataFrame Reading))
  : Dashboard Reading :=
  {| tracking_data := match session with Some df => df | None => [] end;
     map_placeholder := None;
     telemetry_placeholder := None;
     table_placeholder := None;
     errors := [] |}.

(** Lines 45-82.  [update_now] is the value of the button and
    [auto_update] that of the check box; [w_now] answers the cycle of the
    button and [ws] the cycles of the loop, of which as many are run as
    [ws] has worlds.  The pause between two cycles is not part of the
    page. *)
Definition main (session : option (DataFrame Reading))
    (update_now auto_update : bool)
    (w_now : World Reading) (ws : list (World Reading))
  : Outcome Reading :=
  let s0 := page_start session in
  match (if update_now then update_position w_now s0 else Returns s0) with
  | Escapes exc s => Escapes exc s
  | Returns s1 => if auto_update then main_loop ws s1 else Returns s1
  end.

(** The box line 29 writes for a world, if any. *)
Definition error_box (w : World Reading) : option str :=
  match response w with
  | RequestException e => Some (py "Error fetching TLE data: " ++ e)
  | HttpOk _ => None
  end.

(** The cycles of [ws] that the loop gets to: all of them up to the first
    one that raises. *)
Fixpoint cycles_run (ws : list (World Reading)) : list (World Reading) :=
  match ws with
  | [] => []
  | w :: ws' =>
      match cycle_result w with
      | Fails Invalid => [w]
      | _ => w :: cycles_run ws'
      end
  end.

(** A frame as the merge leaves it. *)
Definition valid_frame (df : DataFrame Reading) : Prop :=
  NoDup df ∧ length df ≤ 20.

(** The three placeholders are empty, or they show the frame of the
    session and one of its rows. *)
Definition views_consistent (s : Dashboard Reading) : Prop :=
  (map_placeholder s = None ∧ telemetry_placeholder s = None ∧
   table_placeholder s = None) ∨
  (map_placeholder s = Some (tracking_data s) ∧
   table_placeholder s = Some (tracking_data s) ∧
   ∃ f, telemetry_placeholder s = Some f ∧ f ∈ tracking_data s).

(** What [sort_values('timestamp', ascending=False)] may give for a frame:
    its rows, the later ones first, rows of one timestamp in any order. *)
Definition newest_first (df table : DataFrame Reading) : Prop :=
  table ≡ₚ df ∧ Sorted (λ a b, (timestamp b ≤ timestamp a)%Z) table.

End Script.

(** The same text with the line ends of a CRLF feed. *)
Definition carriage_return : ascii := ascii_of_nat 13.

Definition to_crlf (text : str) : str :=
  flat_map (λ c, if Ascii.eqb c newline then [carriage_return; newline]
                 else [c]) text.

(** ** Sample feeds and worlds *)

(** Readings as whole numbers (thousandths of a degree, metres). *)
Definition fix_at (t : Z) : PositionFix Z :=
  {| timestamp := t; latitude := 51640%Z; longitude := (-12300)%Z;
     altitude := 408000%Z |}.

Definition zarya_feed : str := py
"ISS (ZARYA)
1 25544U 98067A   08264.51782528 -.00002182  00000-0 -11606-4 0  2927
2 25544  51.6416 247.4627 0006703 130.5360 325.0288 15.72125391563537
CSS (TIANHE)
1 48274U 21035A   08264.51782528 -.00002182  00000-0 -11606-4 0  2921
2 48274  41.4700 247.4627 0006703 130.5360 325.0288 15.60000000563533".

(** A debris object of the station listed before the station itself. *)
Definition debris_first_feed : str := py
"ISS DEB
1 47853U 98067RZ  08264.51782528 -.00002182  00000-0 -11606-4 0  2920
2 47853  51.6416 247.4627 0006703 130.5360 325.0288 15.72125391563530
ISS (ZARYA)
1 25544U 98067A   08264.51782528 -.00002182  00000-0 -11606-4 0  2927
2 25544  51.6416 247.4627 0006703 130.5360 325.0288 15.72125391563537".

Definition zarya_line1 : str := py
"1 25544U 98067A   08264.51782528 -.00002182  00000-0 -11606-4 0  2927".
Definition zarya_line2 : str := py
"2 25544  51.6416 247.4627 0006703 130.5360 325.0288 15.72125391563537".
Definition debris_line1 : str := py
"1 47853U 98067RZ  08264.51782528 -.00002182  00000-0 -11606-4 0  2920".
Definition debris_line2 : str := py
"2 47853  51.6416 247.4627 0006703 130.5360 325.0288 15.72125391563530".

(** A feed cut off after the first element line. *)
Definition truncated_feed : str := py
"ISS (ZARYA)
1 25544U 98067A   08264.51782528 -.00002182  00000-0 -11606-4 0  2927".

(** A header followed by two lines that are no element lines. *)
Definition garbled_feed : str := py
"ISS (ZARYA)
<html>
</html>
end".

(** A cycle that succeeds with the fix of time [t]. *)
Definition good_world (t : Z) : World Z :=
  {| response := HttpOk zarya_feed;
     get_current_iss_position := λ _ _, Position (fix_at t) |}.

(** A cycle whose request times out. *)
Definition down_world : World Z :=
  {| response := RequestException (py "Read timed out.");
     get_current_iss_position := λ _ _, Position (fix_at 0) |}.

(** A cycle whose feed lists no station. *)
Definition empty_world : World Z :=
  {| response := HttpOk (py "CSS (TIANHE)");
     get_current_iss_position := λ _ _, Position (fix_at 0) |}.

(** A cycle in which Skyfield rejects the two lines. *)
Definition garbled_world : World Z :=
  {| response := HttpOk garbled_feed;
     get_current_iss_position := λ _ _, Raises (py "ValueError") |}.

(** A feed that lists a debris object of the station and nothing else. *)
Definition debris_only_feed : str := py
"ISS DEB
1 47853U 98067RZ  08264.51782528 -.00002182  00000-0 -11606-4 0  2920
2 47853  51.6416 247.4627 0006703 130.5360 325.0288 15.72125391563530".

(** Readings that may be not a number. *)
Definition is_none (r : option Z) : bool :=
  match r with
  | None => true
  | Some _ => false
  end.

Definition nan_row (t : Z) : PositionFix (option Z) :=
  {| timestamp := t; latitude := None; longitude := None;
     altitude := None |}.

(** A cycle in which the propagation of the two lines fails numerically:
    no exception, a fix of readings that are not numbers. *)
Definition nan_world (t : Z) : World (option Z) :=
  {| response := HttpOk garbled_feed;
     get_current_iss_position := λ _ _, Position (nan_row t) |}.

(** Twenty-five cycles with the timestamps 1 to 25. *)
Definition times25 : list Z := Z.of_nat <$> seq 1 25.

(** * Properties *)

(** ** Text *)

Section TextFacts.

Implicit Types (c : ascii) (s t p q sub line : str) (ls : list str).

Local Ltac by_cases_on_char c :=
  destruct c as [[] [] [] [] [] [] [] []]; vm_compute; try reflexivity;
  try discriminate; try (intros; discriminate).

Lemma upper_char_idemp c : upper_char (upper_char c) = upper_char c.
Proof. by_cases_on_char c. Qed.

Lemma upper_lower_char c : upper_char (lower_char c) = upper_char c.
Proof. by_cases_on_char c. Qed.

Lemma is_space_upper_char c : is_space (upper_char c) = is_space c.
Proof. by_cases_on_char c. Qed.

Lemma is_digit_not_space c : is_digit c = true → is_space c = false.
Proof. by_cases_on_char c. Qed.

Lemma upper_idemp s : upper (upper s) = upper s.
Proof.
  unfold upper. rewrite map_map. apply map_ext. apply upper_char_idemp.
Qed.

Lemma upper_lower s : upper (lower s) = upper s.
Proof.
  unfold upper, lower. rewrite map_map. apply map_ext.
  apply upper_lower_char.
Qed.

Lemma upper_app s t : upper (s ++ t) = upper s ++ upper t.
Proof. apply map_app. Qed.

Lemma blank_upper s : blank s → blank (upper s).
Proof.
  unfold blank, upper. intros Hs. apply Forall_map.
  eapply Forall_impl; [exact Hs|]. intros c Hc. simpl.
  by rewrite is_space_upper_char.
Qed.

(** *** [startswith] and [in] *)

Lemma startswith_spec p s :
  startswith p s = true ↔ ∃ post, s = p ++ post.
Proof.
  revert s. induction p as [|a p IH]; intros s; simpl.
  - split; [by exists s|done].
  - destruct s as [|b s]; [split; [done|by intros [? ?]]|].
    rewrite andb_true_iff, Ascii.eqb_eq, IH. split.
    + intros [-> [post ->]]. by exists post.
    + intros [post [= -> ->]]. split; [done|by exists post].
Qed.

Lemma contains_spec sub s :
  contains sub s = true ↔ ∃ pre post, s = pre ++ sub ++ post.
Proof.
  induction s as [|b s IH]; simpl.
  - rewrite orb_false_r, startswith_spec. split.
    + intros [post ->]. by exists [], post.
    + intros (pre & post & Heq). symmetry in Heq.
      apply app_eq_nil in Heq as [-> Heq]. exists post. done.
  - rewrite orb_true_iff, startswith_spec, IH. split.
    + intros [[post ->]|(pre & post & ->)].
      * by exists [], post.
      * by exists (b :: pre), post.
    + intros (pre & post & Heq). destruct pre as [|b' pre].
      * left. by exists post.
      * right. injection Heq as -> ->. by exists pre, post.
Qed.

Lemma startswith_pad_right sub s q :
  Forall (λ c, is_space c = false) sub → blank q →
  startswith sub (s ++ q) = startswith sub s.
Proof.
  intros Hsub Hq. revert s. induction Hsub as [|a sub Ha Hsub IH]; [done|].
  intros [|b s]; simpl.
  - destruct Hq as [|b q Hb Hq]; [done|]. simpl.
    destruct (Ascii.eqb_spec a b) as [->|]; [congruence|done].
  - by rewrite IH.
Qed.

Lemma contains_blank sub q : solid sub → blank q → contains sub q = false.
Proof.
  intros [Hne Hsub] Hq. induction Hq as [|b q Hb Hq IH]; simpl.
  - destruct sub; [done|done].
  - rewrite IH, orb_false_r. destruct Hsub as [|a sub Ha Hsub]; [done|].
    simpl. destruct (Ascii.eqb_spec a b) as [->|]; [congruence|done].
Qed.

Lemma contains_pad_right sub s q :
  solid sub → blank q → contains sub (s ++ q) = contains sub s.
Proof.
  intros Hsub Hq. induction s as [|b s IH].
  - simpl app. rewrite contains_blank by done. destruct Hsub as [Hne _].
    by destruct sub.
  - simpl. rewrite IH. f_equal.
    apply (startswith_pad_right sub (b :: s) q); [apply Hsub|done].
Qed.

Lemma contains_pad_left sub p s :
  solid sub → blank p → contains sub (p ++ s) = contains sub s.
Proof.
  intros [Hne Hsub] Hp. induction Hp as [|b p Hb Hp IH]; [done|].
  simpl. rewrite IH. destruct Hsub as [|a sub Ha Hsub]; [done|].
  simpl. destruct (Ascii.eqb_spec a b) as [->|]; [congruence|done].
Qed.

Lemma solid_ISS : solid (py "ISS").
Proof. split; [done|]. repeat constructor. Qed.

Lemma solid_ZARYA : solid (py "ZARYA").
Proof. split; [done|]. repeat constructor. Qed.

(** White space around a line does not change whether it matches. *)
Lemma line_matches_padded r line :
  padded r line → line_matches r = line_matches line.
Proof.
  intros (p & q & Hp & Hq & ->). unfold line_matches.
  rewrite !upper_app.
  rewrite (contains_pad_left (py "ISS") (upper p))
    by auto using solid_ISS, blank_upper.
  rewrite (contains_pad_left (py "ZARYA") (upper p))
    by auto using solid_ZARYA, blank_upper.
  rewrite (contains_pad_right (py "ISS") (upper line))
    by auto using solid_ISS, blank_upper.
  rewrite (contains_pad_right (py "ZARYA") (upper line))
    by auto using solid_ZARYA, blank_upper.
  done.
Qed.

Lemma padded_refl line : padded line line.
Proof.
  exists [], []. split; [constructor|]. split; [constructor|].
  by rewrite app_nil_r.
Qed.

Lemma padded_blank r : blank r → padded r [].
Proof.
  intros. exists r, []. split; [done|]. split; [constructor|].
  by rewrite app_nil_r.
Qed.

Lemma line_matches_blank r : blank r → line_matches r = false.
Proof.
  intros Hr. rewrite (line_matches_padded r []); [done|].
  by apply padded_blank.
Qed.

(** *** [strip] *)

Lemma lstrip_blank p s : blank p → lstrip (p ++ s) = lstrip s.
Proof. induction 1 as [|c p Hc Hp IH]; [done|]. simpl. by rewrite Hc. Qed.

Lemma lstrip_solid_head c s : is_space c = false → lstrip (c :: s) = c :: s.
Proof. intros Hc. simpl. by rewrite Hc. Qed.

(** What [lstrip] removes is white space. *)
Lemma blank_nil : blank [].
Proof. constructor. Qed.

Lemma lstrip_split s : ∃ p, blank p ∧ s = p ++ lstrip s.
Proof.
  induction s as [|c s (p & Hp & IH)]; [exists []; split; [apply blank_nil|done]|].
  simpl. destruct (is_space c) eqn:Hc.
  - exists (c :: p). split; [by constructor|]. simpl. by rewrite <-IH.
  - exists []. split; [apply blank_nil|done].
Qed.

Lemma lstrip_all_blank s : blank s → lstrip s = [].
Proof. intros Hs. rewrite <-(app_nil_r s). by apply lstrip_blank. Qed.

Lemma lstrip_app_blank s q :
  blank q → lstrip (s ++ q) = [] ∨ lstrip (s ++ q) = lstrip s ++ q ∧ lstrip s ≠ [].
Proof.
  intros Hq. induction s as [|c s IH]; simpl.
  - left. by apply lstrip_all_blank.
  - destruct (is_space c); [done|]. by right.
Qed.

Lemma lstrip_blank_nil s : lstrip s = [] → blank s.
Proof.
  intros Hs. destruct (lstrip_split s) as (p & Hp & Heq).
  rewrite Hs, app_nil_r in Heq. by subst.
Qed.

Lemma blank_rev s : blank s → blank (rev s).
Proof. apply Forall_rev. Qed.

Lemma rstrip_blank s q : blank q → rstrip (s ++ q) = rstrip s.
Proof.
  intros Hq. unfold rstrip. rewrite rev_app_distr.
  by rewrite lstrip_blank by by apply blank_rev.
Qed.

Lemma rstrip_split s : ∃ q, blank q ∧ s = rstrip s ++ q.
Proof.
  destruct (lstrip_split (rev s)) as (p & Hp & Heq).
  exists (rev p). split; [by apply blank_rev|].
  unfold rstrip. rewrite <-rev_app_distr, <-Heq. by rewrite rev_involutive.
Qed.

(** A text is its [strip] with white space around it. *)
Lemma strip_split s : ∃ p q, blank p ∧ blank q ∧ s = p ++ strip s ++ q.
Proof.
  destruct (lstrip_split s) as (p & Hp & Heq).
  destruct (rstrip_split (lstrip s)) as (q & Hq & Heq').
  exists p, q. split; [done|]. split; [done|].
  unfold strip. by rewrite <-Heq', <-Heq.
Qed.

Lemma strip_padded r line : padded r line → strip r = strip line.
Proof.
  intros (p & q & Hp & Hq & ->). unfold strip.
  rewrite lstrip_blank by done.
  destruct (lstrip_app_blank line q Hq) as [Hnil|[-> _]].
  - rewrite Hnil. apply lstrip_blank_nil in Hnil.
    apply Forall_app in Hnil as [Hline _].
    by rewrite (lstrip_all_blank line).
  - by apply rstrip_blank.
Qed.

Lemma strip_solid_ends c s c' :
  is_space c = false → last (c :: s) = Some c' → is_space c' = false →
  strip (c :: s) = c :: s.
Proof.
  intros Hc Hlast Hc'. unfold strip. rewrite lstrip_solid_head by done.
  apply last_Some in Hlast as [l' Hl']. rewrite Hl'. unfold rstrip.
  rewrite rev_app_distr. simpl. rewrite Hc'. simpl.
  by rewrite rev_involutive.
Qed.

(** *** [split] *)

Lemma split_nonempty sep s : ∃ l ls', split sep s = l :: ls'.
Proof.
  induction s as [|c s (l & ls' & IH)]; simpl; [by eexists _, _|].
  destruct (Ascii.eqb c sep); [by eexists _, _|].
  rewrite IH. by eexists _, _.
Qed.

Lemma split_cons sep c s l ls :
  split sep s = l :: ls →
  split sep (c :: s) =
  if Ascii.eqb c sep then [] :: l :: ls else (c :: l) :: ls.
Proof. intros Hs. simpl. by rewrite Hs. Qed.

(** The last line of [s] and the first of [t] become one line. *)
Lemma split_app sep s t ls l l' ls' :
  split sep s = ls ++ [l] → split sep t = l' :: ls' →
  split sep (s ++ t) = ls ++ (l ++ l') :: ls'.
Proof.
  intros Hs Ht. revert ls l Hs. induction s as [|c s IH]; intros ls l Hs.
  - simpl in Hs. destruct ls as [|? [|? ?]]; simplify_eq/=. done.
  - destruct (split_nonempty sep s) as (l0 & ls0 & Hs0).
    rewrite (split_cons sep c s l0 ls0 Hs0) in Hs.
    destruct (ls0) as [|l1 ls1] using rev_ind.
    + specialize (IH [] l0 Hs0). simpl in IH.
      rewrite <-app_comm_cons, (split_cons sep c _ _ _ IH).
      destruct (Ascii.eqb c sep).
      * destruct ls as [|? [|? [|? ?]]]; simplify_eq/=. done.
      * destruct ls as [|? [|? ?]]; simplify_eq/=. done.
    + clear IHls1. specialize (IH (l0 :: ls1) l1 Hs0). simpl in IH.
      rewrite <-app_comm_cons, (split_cons sep c _ _ _ IH).
      destruct (Ascii.eqb c sep).
      * rewrite !app_comm_cons in Hs. apply app_inj_tail in Hs as [<- <-].
        done.
      * rewrite !app_comm_cons in Hs. apply app_inj_tail in Hs as [<- <-].
        done.
Qed.

Lemma split_blank sep p : blank p → Forall blank (split sep p).
Proof.
  induction 1 as [|c p Hc Hp IH]; [repeat constructor|].
  destruct (split_nonempty sep p) as (l & ls & Hs).
  rewrite (split_cons sep c p l ls Hs). rewrite Hs in IH.
  apply Forall_cons in IH as [Hl Hls].
  destruct (Ascii.eqb c sep); repeat constructor; done.
Qed.

Lemma padded_more p r line q :
  blank p → blank q → padded r line → padded (p ++ r ++ q) line.
Proof.
  intros Hp Hq (p' & q' & Hp' & Hq' & ->). exists (p ++ p'), (q' ++ q).
  split; [by apply Forall_app|]. split; [by apply Forall_app|].
  by rewrite <-!app_assoc.
Qed.

(** The lines of a text and the lines the scan runs over: the latter are
    the former without the blank lines at both ends of the text, and
    without the white space that starts the first and ends the last. *)
Lemma text_lines_feed_lines text :
  ∃ before kept after,
    text_lines text = before ++ kept ++ after ∧
    Forall2 padded kept (feed_lines text) ∧
    Forall blank before ∧ Forall blank after.
Proof.
  unfold text_lines, feed_lines.
  destruct (strip_split text) as (p & q & Hp & Hq & Heq).
  pose proof (split_blank newline p Hp) as Hps.
  pose proof (split_blank newline q Hq) as Hqs.
  destruct (split_nonempty newline p) as (p0 & ps & Hsp).
  destruct (split_nonempty newline q) as (q0 & qs & Hsq).
  destruct (split_nonempty newline (strip text)) as (c0 & cs & Hsc).
  rewrite Hsp in Hps. rewrite Hsq in Hqs. rewrite Hsc.
  apply Forall_cons in Hqs as [Hq0 Hqs].
  assert (∃ ps' pl, p0 :: ps = ps' ++ [pl]) as (ps' & pl & Hpl).
  { destruct ps as [|x ps _] using rev_ind; [by exists [], p0|].
    by exists (p0 :: ps), x. }
  rewrite Hpl in Hsp, Hps. apply Forall_app in Hps as [Hps Hpl'].
  apply Forall_cons in Hpl' as [Hpl' _].
  assert (∃ cs' cl, c0 :: cs = cs' ++ [cl]) as (cs' & cl & Hcl).
  { destruct cs as [|x cs _] using rev_ind; [by exists [], c0|].
    by exists (c0 :: cs), x. }
  rewrite Hcl in Hsc |- *.
  pose proof (split_app newline _ _ _ _ _ _ Hsc Hsq) as Hcq.
  assert (Forall2 padded (cs' ++ [cl ++ q0]) (cs' ++ [cl])) as Hpad.
  { apply Forall2_app.
    - apply Forall_Forall2_diag, Forall_forall. intros; apply padded_refl.
    - repeat constructor. exists [], q0. repeat split; [constructor|done]. }
  destruct cs' as [|c1 cs'].
  - simpl in *.
    pose proof (split_app newline _ _ _ _ _ _ Hsp Hcq) as Hall.
    rewrite <-Heq in Hall. rewrite Hall.
    exists ps', [pl ++ cl ++ q0], qs. repeat split; [|done|done].
    repeat constructor. exists pl, q0. by repeat split.
  - simpl in Hcq.
    pose proof (split_app newline _ _ _ _ _ _ Hsp Hcq) as Hall.
    rewrite <-Heq in Hall. rewrite Hall.
    exists ps', ((pl ++ c1) :: cs' ++ [cl ++ q0]), qs.
    split; [simpl; by rewrite <-app_assoc|]. repeat split; [|done|done].
    simpl in Hpad. apply Forall2_cons in Hpad as [_ Hpad].
    constructor; [|done]. exists pl, []. rewrite app_nil_r.
    repeat split; [done|constructor].
Qed.

(** *** The scan *)

Lemma scan_from_None lines i rest :
  (∀ j l, rest !! j = Some l → line_matches l = true →
          length lines ≤ i + j + 2) →
  scan_from lines i rest = None.
Proof.
  revert i. induction rest as [|line rest IH]; intros i Hno; [done|].
  simpl. assert (scan_from lines (S i) rest = None) as ->.
  { apply IH. intros j l Hl Hm. specialize (Hno (S j) l Hl Hm). lia. }
  destruct (line_matches line) eqn:Hm; [|done].
  specialize (Hno 0 line eq_refl Hm).
  destruct (Nat.ltb_spec (i + 2) (length lines)); [lia|done].
Qed.

Lemma scan_from_Some lines i rest a b :
  scan_from lines i rest = Some (a, b) →
  ∃ j hdr l1 l2,
    rest !! j = Some hdr ∧ line_matches hdr = true ∧
    (∀ j' l, j' < j → rest !! j' = Some l → line_matches l = false) ∧
    lines !! (i + j + 1) = Some l1 ∧ lines !! (i + j + 2) = Some l2 ∧
    a = strip l1 ∧ b = strip l2.
Proof.
  revert i. induction rest as [|line rest IH]; intros i Hscan; [done|].
  simpl in Hscan.
  assert (scan_from lines (S i) rest = Some (a, b) →
          ∃ j hdr l1 l2,
            (line :: rest) !! j = Some hdr ∧ line_matches hdr = true ∧
            (line_matches line = false →
             ∀ j' l, j' < j → (line :: rest) !! j' = Some l →
                     line_matches l = false) ∧
            lines !! (i + j + 1) = Some l1 ∧
            lines !! (i + j + 2) = Some l2 ∧
            a = strip l1 ∧ b = strip l2 ∧ 0 < j) as Hnext.
  { intros (j & hdr & l1 & l2 & Hj & Hm & Hfirst & H1 & H2 & Ha & Hb)%IH.
    exists (S j), hdr, l1, l2.
    replace (i + S j + 1) with (S i + j + 1) by lia.
    replace (i + S j + 2) with (S i + j + 2) by lia.
    repeat split; try done; [|lia].
    intros Hline [|j'] l Hlt Hl; simplify_eq/=; [done|].
    apply (Hfirst j' l); [lia|done]. }
  destruct (line_matches line) eqn:Hm.
  - destruct (Nat.ltb_spec (i + 2) (length lines)) as [Hlt|Hge].
    + destruct (lines !! (i + 1)) as [l1|] eqn:H1; [|done].
      destruct (lines !! (i + 2)) as [l2|] eqn:H2; [|done].
      injection Hscan as <- <-. exists 0, line, l1, l2.
      rewrite !Nat.add_0_r. repeat split; try done. intros; lia.
    + destruct (Hnext Hscan)
        as (j & hdr & l1 & l2 & _ & _ & _ & _ & H2 & _ & _ & Hpos).
      apply lookup_lt_Some in H2. lia.
  - destruct (Hnext Hscan)
      as (j & hdr & l1 & l2 & Hj & Hm' & Hfirst & H1 & H2 & Ha & Hb & _).
    exists j, hdr, l1, l2. repeat split; try done. by apply Hfirst.
Qed.

(** The two subscripts of line 26 are in range under the guard of line 25. *)
Lemma scan_subscripts_in_range (lines : list str) i :
  i + 2 < length lines →
  ∃ l1 l2, lines !! (i + 1) = Some l1 ∧ lines !! (i + 2) = Some l2.
Proof.
  intros Hlt.
  destruct (lookup_lt_is_Some_2 lines (i + 1)) as [l1 H1]; [lia|].
  destruct (lookup_lt_is_Some_2 lines (i + 2)) as [l2 H2]; [lia|].
  by exists l1, l2.
Qed.

Lemma scan_from_first lines i rest j hdr l1 l2 :
  rest !! j = Some hdr → line_matches hdr = true →
  (∀ j' l, j' < j → rest !! j' = Some l → line_matches l = false) →
  lines !! (i + j + 1) = Some l1 → lines !! (i + j + 2) = Some l2 →
  scan_from lines i rest = Some (strip l1, strip l2).
Proof.
  revert i j. induction rest as [|line rest IH]; intros i j Hj Hm Hfirst H1 H2;
    [done|].
  destruct j as [|j]; simplify_eq/=.
  - rewrite Hm. rewrite Nat.add_0_r in H1, H2.
    pose proof (lookup_lt_Some _ _ _ H2).
    destruct (Nat.ltb_spec (i + 2) (length lines)); [|lia].
    by rewrite H1, H2.
  - rewrite (Hfirst 0 line) by (done || lia).
    apply (IH (S i) j); try done.
    + intros j' l Hlt Hl. apply (Hfirst (S j') l); [lia|done].
    + by replace (S i + j + 1) with (i + S j + 1) by lia.
    + by replace (S i + j + 2) with (i + S j + 2) by lia.
Qed.

Lemma line_matches_spec line :
  line_matches line = true ↔
  ∃ pre post, upper line = pre ++ py "ISS" ++ post ∨
              upper line = pre ++ py "ZARYA" ++ post.
Proof.
  unfold line_matches. rewrite orb_true_iff, !contains_spec. naive_solver.
Qed.

Lemma header_matches hdr :
  contains (py "ISS (ZARYA)") hdr = true → line_matches hdr = true.
Proof.
  intros (pre & post & ->)%contains_spec. apply line_matches_spec.
  exists (upper pre), (py " (ZARYA)" ++ upper post). left.
  by rewrite !upper_app.
Qed.

Lemma element_line_strip number l :
  is_space number = false → element_line number l = true →
  strip l = l ∧ ¬ blank l.
Proof.
  unfold element_line. intros Hn Hl.
  apply andb_true_iff in Hl as [Hl Hlast].
  apply andb_true_iff in Hl as [_ Hhead].
  destruct l as [|c l]; [done|]. apply Ascii.eqb_eq in Hhead as ->.
  destruct (last (number :: l)) as [c'|] eqn:Hc'; [|done].
  apply is_digit_not_space in Hlast. split.
  - by apply (strip_solid_ends number l c').
  - intros Hblank. inversion Hblank; congruence.
Qed.

(** The first matching line of the text, when the second line after it is
    not blank, is the line the scan stops at. *)
Lemma scan_text_first text i hdr l1 l2 :
  text_lines text !! i = Some hdr → line_matches hdr = true →
  (∀ j l, j < i → text_lines text !! j = Some l → line_matches l = false) →
  text_lines text !! (i + 1) = Some l1 →
  text_lines text !! (i + 2) = Some l2 → ¬ blank l2 →
  scan_text text = Some (strip l1, strip l2).
Proof.
  intros Hi Hm Hfirst H1 H2 Hl2.
  destruct (text_lines_feed_lines text)
    as (before & kept & after & Hlines & Hpad & Hbefore & Hafter).
  rewrite Hlines in Hi, Hfirst, H1, H2.
  assert (length before ≤ i) as Hlo.
  { destruct (decide (length before ≤ i)); [done|].
    rewrite lookup_app_l in Hi by lia.
    rewrite (line_matches_blank hdr) in Hm; [done|].
    by apply (Forall_lookup_1 _ _ _ _ Hbefore Hi). }
  assert (i + 2 < length before + length kept) as Hhi.
  { destruct (decide (i + 2 < length before + length kept)); [done|].
    rewrite lookup_app_r, lookup_app_r in H2 by lia.
    destruct Hl2. by apply (Forall_lookup_1 _ _ _ _ Hafter H2). }
  rewrite lookup_app_r, lookup_app_l in Hi, H1, H2 by lia.
  destruct (Forall2_lookup_l _ _ _ _ _ Hpad Hi) as (hdr' & Hi' & Hhdr).
  destruct (Forall2_lookup_l _ _ _ _ _ Hpad H1) as (l1' & H1' & Hl1').
  destruct (Forall2_lookup_l _ _ _ _ _ Hpad H2) as (l2' & H2' & Hl2').
  rewrite (strip_padded _ _ Hl1'), (strip_padded _ _ Hl2').
  unfold scan_text. simpl.
  apply (scan_from_first _ 0 _ (i - length before) hdr').
  - done.
  - by rewrite <-(line_matches_padded _ _ Hhdr).
  - intros j' l Hlt Hl.
    destruct (Forall2_lookup_r _ _ _ _ _ Hpad Hl) as (r & Hr & Hrl).
    rewrite <-(line_matches_padded _ _ Hrl).
    apply (Hfirst (length before + j')); [lia|].
    rewrite lookup_app_r, lookup_app_l by (try apply lookup_lt_Some in Hr; lia).
    by replace (length before + j' - length before) with j' by lia.
  - by replace (0 + (i - length before) + 1)
      with (i + 1 - length before) by lia.
  - by replace (0 + (i - length before) + 2)
      with (i + 2 - length before) by lia.
Qed.

(** ** The claims on the scan *)

(** C6, as the code has it, for ASCII text: the scan runs over the lines
    of the text without the white space at its two ends; a line matches
    when its upper-case form contains ISS or ZARYA, so the case of the
    line and white space after it do not matter; the scan stops at the
    first matching line and returns the two lines after it, stripped. *)
Theorem scan_takes_first_match text :
  isascii text = true →
  (∀ a b, scan_text text = Some (a, b) ↔
     ∃ i hdr l1 l2,
       feed_lines text !! i = Some hdr ∧ line_matches hdr = true ∧
       (∀ j l, j < i → feed_lines text !! j = Some l →
               line_matches l = false) ∧
       feed_lines text !! (i + 1) = Some l1 ∧
       feed_lines text !! (i + 2) = Some l2 ∧
       a = strip l1 ∧ b = strip l2) ∧
  (∀ line, isascii line = true →
     (line_matches line = true ↔
      ∃ pre post, upper line = pre ++ py "ISS" ++ post ∨
                  upper line = pre ++ py "ZARYA" ++ post)) ∧
  (∀ line ws, isascii line = true → blank ws →
     line_matches (line ++ ws) = line_matches line) ∧
  (∀ line, isascii line = true →
     line_matches (upper line) = line_matches line ∧
     line_matches (lower line) = line_matches line).
Proof.
  intros _. split; [|split; [|split]].
  - intros a b. unfold scan_text. simpl. split.
    + intros (j & hdr & l1 & l2 & H)%scan_from_Some. by exists j, hdr, l1, l2.
    + intros (i & hdr & l1 & l2 & Hi & Hm & Hfirst & H1 & H2 & -> & ->).
      by apply (scan_from_first _ 0 _ i hdr).
  - intros line _. apply line_matches_spec.
  - intros line ws _ Hws. apply line_matches_padded. exists [], ws.
    split; [apply blank_nil|done].
  - intros line _. unfold line_matches.
    by rewrite upper_idemp, upper_lower.
Qed.

(** C7, as the code has it, for ASCII text: when no line of the text
    contains ISS or ZARYA, whatever the case, or no such line has two
    lines after it, the scan finds nothing, [fetch_iss_tle] returns its
    failure value [None] and the cycle fails with NotFound. *)
Theorem scan_without_match_fails text :
  isascii text = true →
  (∀ j line, text_lines text !! j = Some line → line_matches line = true →
             length (text_lines text) ≤ j + 2) →
  scan_text text = None ∧
  ∀ {Reading} (w : World Reading) (s : Dashboard Reading),
    response w = HttpOk text →
    fetch_iss_tle (response w) s = (None, s) ∧
    cycle_result w = Fails NotFound.
Proof.
  intros _ Hno. assert (scan_text text = None) as Hscan.
  { destruct (text_lines_feed_lines text)
      as (before & kept & after & Hlines & Hpad & Hbefore & Hafter).
    apply scan_from_None. intros j l Hl Hm.
    destruct (Forall2_lookup_r _ _ _ _ _ Hpad Hl) as (r & Hr & Hrl).
    rewrite <-(line_matches_padded _ _ Hrl) in Hm.
    specialize (Hno (length before + j) r). rewrite Hlines in Hno.
    pose proof (lookup_lt_Some _ _ _ Hr).
    rewrite lookup_app_r, lookup_app_l in Hno by lia.
    replace (length before + j - length before) with j in Hno by lia.
    specialize (Hno Hr Hm). rewrite !length_app in Hno.
    apply Forall2_length in Hpad. lia. }
  split; [done|]. intros Reading w s Hw. unfold cycle_result.
  rewrite Hw. simpl. by rewrite Hscan.
Qed.

(** C8, as the code has it, for ASCII text: when a line of the text
    holds the header ISS (ZARYA), no line before it contains ISS or ZARYA
    in any case, and the two lines after it are well-formed element
    lines, the scan returns exactly these two lines. *)
Theorem scan_returns_element_lines text i hdr l1 l2 :
  isascii text = true →
  text_lines text !! i = Some hdr →
  contains (py "ISS (ZARYA)") hdr = true →
  (∀ j l, j < i → text_lines text !! j = Some l → line_matches l = false) →
  text_lines text !! (i + 1) = Some l1 →
  text_lines text !! (i + 2) = Some l2 →
  element_line "1" l1 = true → element_line "2" l2 = true →
  scan_text text = Some (l1, l2) ∧
  ∀ {Reading} (s : Dashboard Reading),
    fetch_iss_tle (HttpOk text) s = (Some (l1, l2), s).
Proof.
  intros _ Hi Hhdr Hfirst H1 H2 Hl1 Hl2.
  apply (element_line_strip "1") in Hl1 as [Hs1 _]; [|done].
  apply (element_line_strip "2") in Hl2 as [Hs2 Hb2]; [|done].
  assert (scan_text text = Some (l1, l2)) as Hscan.
  { rewrite <-Hs1, <-Hs2.
    apply (scan_text_first text i hdr); try done. by apply header_matches. }
  split; [done|]. intros Reading s. simpl. by rewrite Hscan.
Qed.

End TextFacts.

(** ** The scan claims on the sample feeds *)

(** C6: no object name gives the test of the scan.  With the name of the
    station, the debris listed first is passed over by the scan of the
    specification and taken by the code. *)
Lemma scan_matches_more_than_the_name :
  line_matches (py "ISS DEB") = true ∧
  name_matches_reference (py "ISS (ZARYA)") (py "ISS DEB") = false ∧
  fetchElements_reference (py "ISS (ZARYA)") debris_first_feed =
    Some (zarya_line1, zarya_line2) ∧
  scan_text debris_first_feed = Some (debris_line1, debris_line2) ∧
  ¬ ∃ name, ∀ line, line_matches line = name_matches_reference name line.
Proof.
  repeat split; try (vm_compute; reflexivity).
  intros [name Hname].
  pose proof (Hname (py "ISS")) as H1.
  pose proof (Hname (py "ZARYA")) as H2.
  pose proof (Hname (py "X")) as H3.
  unfold name_matches_reference in *. destruct (upper name) as [|c u].
  - vm_compute in H3. discriminate.
  - symmetry in H1, H2.
    change (line_matches (py "ISS")) with true in H1.
    change (line_matches (py "ZARYA")) with true in H2.
    apply contains_spec in H1 as (pre1 & post1 & H1).
    apply contains_spec in H2 as (pre2 & post2 & H2).
    assert (c ∈ upper (py "ISS")) as Hc1.
    { rewrite H1. set_solver. }
    assert (c ∈ upper (py "ZARYA")) as Hc2.
    { rewrite H2. set_solver. }
    vm_compute in Hc1, Hc2. set_solver.
Qed.

Lemma scan_takes_first_match_zarya :
  scan_text zarya_feed = Some (zarya_line1, zarya_line2) ↔
  ∃ i hdr l1 l2,
    feed_lines zarya_feed !! i = Some hdr ∧ line_matches hdr = true ∧
    (∀ j l, j < i → feed_lines zarya_feed !! j = Some l →
            line_matches l = false) ∧
    feed_lines zarya_feed !! (i + 1) = Some l1 ∧
    feed_lines zarya_feed !! (i + 2) = Some l2 ∧
    zarya_line1 = strip l1 ∧ zarya_line2 = strip l2.
Proof.
  apply (scan_takes_first_match zarya_feed). reflexivity.
Defined.

(** C7: in the feed that lists only the debris no line contains the name
    of the station, and the scan returns the lines of the debris. *)
Lemma scan_succeeds_without_the_name :
  isascii debris_only_feed = true ∧
  Forall (λ line, name_matches_reference (py "ISS (ZARYA)") line = false)
    (text_lines debris_only_feed) ∧
  fetchElements_reference (py "ISS (ZARYA)") debris_only_feed = None ∧
  scan_text debris_only_feed = Some (debris_line1, debris_line2) ∧
  scan_text debris_only_feed ≠ None.
Proof. vm_compute. repeat split; repeat constructor; discriminate. Qed.

Lemma scan_without_match_fails_truncated :
  scan_text truncated_feed = None ∧
  ∀ {Reading} (w : World Reading) (s : Dashboard Reading),
    response w = HttpOk truncated_feed →
    fetch_iss_tle (response w) s = (None, s) ∧
    cycle_result w = Fails NotFound.
Proof.
  apply (scan_without_match_fails truncated_feed); [reflexivity|].
  intros j line Hj Hm. vm_compute in Hj.
  destruct j as [|[|j]]; simplify_eq/=;
    try (vm_compute in Hm; discriminate). vm_compute. lia.
Defined.

(** C8: the feed that lists the debris first holds the header and the two
    element lines of the station, and the scan returns those of the
    debris. *)
Lemma scan_returns_the_debris_lines :
  text_lines debris_first_feed !! 3 = Some (py "ISS (ZARYA)") ∧
  text_lines debris_first_feed !! 4 = Some zarya_line1 ∧
  text_lines debris_first_feed !! 5 = Some zarya_line2 ∧
  element_line "1" zarya_line1 = true ∧
  element_line "2" zarya_line2 = true ∧
  scan_text debris_first_feed = Some (debris_line1, debris_line2) ∧
  scan_text debris_first_feed ≠ Some (zarya_line1, zarya_line2).
Proof. vm_compute. repeat split; discriminate. Qed.

Lemma scan_returns_element_lines_zarya :
  scan_text zarya_feed = Some (zarya_line1, zarya_line2) ∧
  ∀ {Reading} (s : Dashboard Reading),
    fetch_iss_tle (HttpOk zarya_feed) s =
    (Some (zarya_line1, zarya_line2), s).
Proof.
  apply (scan_returns_element_lines zarya_feed 0 (py "ISS (ZARYA)"));
    try (vm_compute; reflexivity).
  intros j l Hj. lia.
Defined.

(** ** The history frame *)

Section HistoryFacts.

Context {Reading : Type} `{!EqDecision Reading}.

Implicit Types (df seen fs : DataFrame Reading) (r f : PositionFix Reading).
Implicit Types (w : World Reading) (ws : list (World Reading)).
Implicit Types (s : Dashboard Reading).

Lemma rows_not_marked_cons seen r df :
  rows_not_marked (r :: df) (duplicated_from seen (r :: df)) =
  if decide (r ∈ seen)
  then rows_not_marked df (duplicated_from (r :: seen) df)
  else r :: rows_not_marked df (duplicated_from (r :: seen) df).
Proof.
  unfold rows_not_marked. simpl. rewrite filter_cons. simpl.
  destruct (decide (r ∈ seen)) as [Hin|Hin].
  - rewrite bool_decide_eq_true_2 by done. by rewrite decide_False.
  - rewrite bool_decide_eq_false_2 by done. by rewrite decide_True.
Qed.

(** A row survives when it is its first occurrence and was not seen. *)
Lemma elem_of_rows_not_marked seen df r :
  r ∈ rows_not_marked df (duplicated_from seen df) ↔ r ∈ df ∧ r ∉ seen.
Proof.
  revert seen. induction df as [|x df IH]; intros seen.
  - unfold rows_not_marked. simpl. set_solver.
  - rewrite rows_not_marked_cons. destruct (decide (x ∈ seen)).
    + rewrite IH. set_solver.
    + rewrite elem_of_cons, IH. destruct (decide (r = x)); set_solver.
Qed.

Lemma NoDup_rows_not_marked seen df :
  NoDup (rows_not_marked df (duplicated_from seen df)).
Proof.
  revert seen. induction df as [|x df IH]; intros seen.
  - constructor.
  - rewrite rows_not_marked_cons. destruct (decide (x ∈ seen)); [done|].
    constructor; [|done]. rewrite elem_of_rows_not_marked. set_solver.
Qed.

(** Rows that are new and pairwise distinct all survive. *)
Lemma rows_not_marked_fresh seen df :
  NoDup df → (∀ r, r ∈ df → r ∉ seen) →
  rows_not_marked df (duplicated_from seen df) = df.
Proof.
  revert seen. induction df as [|x df IH]; intros seen Hnd Hfresh; [done|].
  rewrite rows_not_marked_cons. apply NoDup_cons in Hnd as [Hx Hnd].
  rewrite decide_False by set_solver. f_equal. apply IH; [done|].
  intros r Hr. set_solver.
Qed.

(** Only the membership in [seen] matters. *)
Lemma rows_not_marked_seen seen seen' df :
  (∀ r, r ∈ seen ↔ r ∈ seen') →
  rows_not_marked df (duplicated_from seen df) =
  rows_not_marked df (duplicated_from seen' df).
Proof.
  revert seen seen'. induction df as [|x df IH]; intros seen seen' Heq; [done|].
  rewrite !rows_not_marked_cons.
  rewrite (IH (x :: seen) (x :: seen')) by set_solver.
  destruct (decide (x ∈ seen)), (decide (x ∈ seen')); set_solver.
Qed.

Lemma rows_not_marked_app seen df1 df2 :
  rows_not_marked (df1 ++ df2) (duplicated_from seen (df1 ++ df2)) =
  rows_not_marked df1 (duplicated_from seen df1) ++
  rows_not_marked df2 (duplicated_from (df1 ++ seen) df2).
Proof.
  revert seen. induction df1 as [|x df1 IH]; intros seen; [done|].
  rewrite <-!app_comm_cons, !rows_not_marked_cons, IH.
  rewrite (rows_not_marked_seen (df1 ++ x :: seen) ((x :: df1) ++ seen))
    by set_solver.
  by destruct (decide (x ∈ seen)).
Qed.

Lemma NoDup_drop_duplicates df : NoDup (drop_duplicates df).
Proof. apply NoDup_rows_not_marked. Qed.

Lemma elem_of_drop_duplicates df r : r ∈ drop_duplicates df ↔ r ∈ df.
Proof.
  unfold drop_duplicates, duplicated. rewrite elem_of_rows_not_marked.
  set_solver.
Qed.

Lemma drop_duplicates_NoDup df : NoDup df → drop_duplicates df = df.
Proof. intros. apply rows_not_marked_fresh; set_solver. Qed.

(** Appending one row to a frame without repetition: the row is dropped
    again when the frame has it already. *)
Lemma drop_duplicates_snoc df f :
  NoDup df →
  drop_duplicates (df ++ [f]) = if decide (f ∈ df) then df else df ++ [f].
Proof.
  intros Hnd. unfold drop_duplicates, duplicated.
  rewrite rows_not_marked_app, rows_not_marked_fresh by set_solver.
  rewrite rows_not_marked_cons. unfold rows_not_marked. simpl.
  rewrite app_nil_r.
  destruct (decide (f ∈ df)); [by rewrite app_nil_r|done].
Qed.

(** *** [tail] *)

Lemma length_tail n df : length (tail n df) ≤ n.
Proof. unfold tail. rewrite length_drop. lia. Qed.

Lemma tail_short n df : length df ≤ n → tail n df = df.
Proof. intros. unfold tail. by replace (length df - n) with 0 by lia. Qed.

Lemma tail_full n df : n ≤ length df → length (tail n df) = n.
Proof. intros. unfold tail. rewrite length_drop. lia. Qed.

Lemma NoDup_tail n df : NoDup df → NoDup (tail n df).
Proof. intros. eapply sublist_NoDup; [done|]. apply sublist_drop. Qed.

Lemma elem_of_tail n df r : r ∈ tail n df → r ∈ df.
Proof. intros Hin. eapply elem_of_sublist; [done|]. apply sublist_drop. Qed.

Lemma elem_of_tail_snoc n df f : 0 < n → f ∈ tail n (df ++ [f]).
Proof.
  intros. unfold tail. rewrite length_app, drop_app_le by (simpl; lia).
  set_solver.
Qed.

(** Cutting before and after a new row is cutting after it. *)
Lemma tail_tail_snoc n df f :
  0 < n → tail n (tail n df ++ [f]) = tail n (df ++ [f]).
Proof.
  intros Hn. destruct (decide (length df ≤ n)) as [Hle|Hgt].
  { by rewrite (tail_short n df). }
  unfold tail at 1 3. rewrite !length_app, tail_full by lia. simpl.
  rewrite !drop_app_le by (rewrite ?tail_full; lia).
  f_equal. unfold tail. rewrite drop_drop. f_equal. lia.
Qed.

(** *** [merge] *)

Lemma length_merge df f : length (merge df f) ≤ 20.
Proof. apply length_tail. Qed.

Lemma NoDup_merge df f : NoDup (merge df f).
Proof. apply NoDup_tail, NoDup_drop_duplicates. Qed.

Lemma merge_NoDup df f :
  NoDup df →
  merge df f = tail 20 (if decide (f ∈ df) then df else df ++ [f]).
Proof. intros. unfold merge, concat. by rewrite drop_duplicates_snoc. Qed.

Lemma merge_present df f :
  NoDup df → length df ≤ 20 → f ∈ df → merge df f = df.
Proof.
  intros. rewrite merge_NoDup, decide_True by done. by apply tail_short.
Qed.

Lemma merge_fresh df f :
  NoDup df → f ∉ df → merge df f = tail 20 (df ++ [f]).
Proof. intros. by rewrite merge_NoDup, decide_False. Qed.

Lemma elem_of_merge_new df f :
  NoDup df → length df ≤ 20 → f ∈ merge df f.
Proof.
  intros Hnd Hlen. destruct (decide (f ∈ df)).
  - by rewrite merge_present.
  - rewrite merge_fresh by done. apply elem_of_tail_snoc. lia.
Qed.

Lemma filter_eq_absent df f : f ∉ df → filter (λ r, r = f) df = [].
Proof.
  induction df as [|x df IH]; intros Hf; [done|].
  rewrite filter_cons_False by set_solver. apply IH. set_solver.
Qed.

Lemma filter_eq_NoDup df f :
  NoDup df → f ∈ df → filter (λ r, r = f) df = [f].
Proof.
  induction 1 as [|x df Hx Hnd IH]; [set_solver|].
  intros Hin. rewrite filter_cons. destruct (decide (x = f)) as [->|Hne].
  - f_equal. by apply filter_eq_absent.
  - apply IH. set_solver.
Qed.

(** The frame after a run of fixes, and what it is when they differ. *)
Lemma foldl_merge_valid df fs :
  NoDup df → length df ≤ 20 →
  NoDup (foldl merge df fs) ∧ length (foldl merge df fs) ≤ 20.
Proof.
  revert df. induction fs as [|f fs IH]; intros df Hnd Hlen; [done|].
  simpl. apply IH; [apply NoDup_merge|apply length_merge].
Qed.

Lemma foldl_merge_distinct fs :
  NoDup fs → foldl merge [] fs = tail 20 fs.
Proof.
  induction fs as [|f fs IH] using rev_ind; intros Hnd; [done|].
  apply NoDup_app in Hnd as (Hfs & Hf & _).
  rewrite foldl_snoc, IH by done.
  rewrite merge_fresh.
  - apply tail_tail_snoc. lia.
  - by apply NoDup_tail.
  - intros Hin%elem_of_tail. apply (Hf f); set_solver.
Qed.

(** *** Cycles *)

Lemma update_position_fix w s f :
  cycle_result w = Fix f →
  update_position w s =
  Returns {| tracking_data := merge (tracking_data s) f;
             map_placeholder := Some (merge (tracking_data s) f);
             telemetry_placeholder := Some f;
             table_placeholder := Some (merge (tracking_data s) f);
             errors := errors s |}.
Proof.
  unfold cycle_result, update_position, fetch_iss_tle.
  destruct (response w) as [text|msg]; [|done].
  destruct (scan_text text) as [[line1 line2]|]; [|done].
  destruct (get_current_iss_position w line1 line2); [|done].
  by intros [= ->].
Qed.

Lemma main_loop_fixes ws fs s :
  cycle_result <$> ws = Fix <$> fs →
  ∃ s', main_loop ws s = Returns s' ∧
        tracking_data s' = foldl merge (tracking_data s) fs.
Proof.
  revert fs s. induction ws as [|w ws IH]; intros [|f fs] s Heq;
    simplify_eq/=; [by eexists|].
  rewrite (update_position_fix w s f) by done.
  destruct (IH fs (mkDashboard (merge (tracking_data s) f)
    (Some (merge (tracking_data s) f)) (Some f)
    (Some (merge (tracking_data s) f)) (errors s))) as (s' & Hs' & Hd);
    [done|]. by exists s'.
Qed.

Lemma fixes_take n ws fs :
  cycle_result <$> ws = Fix <$> fs →
  cycle_result <$> take n ws = Fix <$> take n fs.
Proof. intros Heq. by rewrite !fmap_take, Heq. Qed.

Lemma fixes_length ws fs :
  cycle_result <$> ws = Fix <$> fs → length fs = length ws.
Proof.
  intros Heq. by rewrite <-(length_fmap Fix fs), <-Heq, length_fmap.
Qed.

Lemma update_position_fails w s kind :
  cycle_result w = Fails kind →
  match kind with
  | Transport =>
      ∃ msg, update_position w s = Returns (st_error msg s)
  | NotFound => update_position w s = Returns s
  | Invalid => ∃ exc, update_position w s = Escapes exc s
  end.
Proof.
  unfold cycle_result, update_position, fetch_iss_tle.
  destruct (response w) as [text|msg].
  - destruct (scan_text text) as [[line1 line2]|].
    + destruct (get_current_iss_position w line1 line2) as [|exc]; [done|].
      intros [= <-]. by exists exc.
    + by intros [= <-].
  - intros [= <-]. by eexists.
Qed.

Lemma filter_ne_absent df f : f ∉ df → filter (λ r, r ≠ f) df = df.
Proof.
  induction df as [|x df IH]; intros Hf; [done|].
  rewrite filter_cons_True by set_solver. f_equal. apply IH. set_solver.
Qed.

Lemma merge_reference_fresh n df f :
  f ∉ df → merge_reference n df f = tail n (df ++ [f]).
Proof. intros. unfold merge_reference. by rewrite filter_ne_absent. Qed.

Lemma merge_reference_present df f :
  NoDup df → length df ≤ 20 → f ∈ df →
  merge_reference 20 df f = filter (λ r, r ≠ f) df ++ [f].
Proof.
  intros Hnd Hlen Hin. unfold merge_reference. apply tail_short.
  rewrite length_app. simpl.
  pose proof (length_filter_lt (λ r, r ≠ f) df f Hin). naive_solver lia.
Qed.

(** Without the assumption that the frame has no repetition. *)
Lemma drop_duplicates_snoc_any df f :
  drop_duplicates (df ++ [f]) =
  drop_duplicates df ++ (if decide (f ∈ df) then [] else [f]).
Proof.
  unfold drop_duplicates, duplicated.
  rewrite rows_not_marked_app, rows_not_marked_cons, app_nil_r.
  by destruct (decide (f ∈ df)).
Qed.

Lemma length_drop_duplicates df : length (drop_duplicates df) ≤ length df.
Proof.
  unfold drop_duplicates, duplicated. generalize (@nil (PositionFix Reading)).
  induction df as [|x df IH]; intros seen; [done|].
  rewrite rows_not_marked_cons. specialize (IH (x :: seen)).
  destruct (decide (x ∈ seen)); simpl; lia.
Qed.

(** A fix that the frame does not have ends up as its last row. *)
Lemma last_merge_new df f : f ∉ df → last (merge df f) = Some f.
Proof.
  intros Hnew. unfold merge, concat.
  rewrite drop_duplicates_snoc_any, decide_False by done.
  unfold tail. rewrite length_app, drop_app_le by (simpl; lia).
  apply last_snoc.
Qed.

(** As long as nothing is cut off, the frame is the run of fixes without
    its repetitions. *)
Lemma foldl_merge_below_capacity fs :
  length fs ≤ 20 → foldl merge [] fs = drop_duplicates fs.
Proof.
  induction fs as [|f fs IH] using rev_ind; intros Hlen; [done|].
  rewrite length_app in Hlen. simpl in Hlen.
  rewrite foldl_snoc, IH by lia.
  rewrite merge_NoDup by apply NoDup_drop_duplicates.
  rewrite drop_duplicates_snoc_any.
  pose proof (length_drop_duplicates fs).
  destruct (decide (f ∈ drop_duplicates fs)) as [Hin|Hin];
    rewrite elem_of_drop_duplicates in Hin.
  - rewrite decide_True, app_nil_r by done. apply tail_short. lia.
  - rewrite decide_False by done. apply tail_short.
    rewrite length_app. simpl. lia.
Qed.

Lemma main_loop_below_capacity ws fs :
  cycle_result <$> ws = Fix <$> fs → length ws ≤ 20 →
  ∃ s, main_loop ws session_start = Returns s ∧
       tracking_data s = drop_duplicates fs.
Proof.
  intros Hfix Hlen.
  destruct (main_loop_fixes ws fs session_start) as (s & Hs & Hd); [done|].
  exists s. split; [done|]. simpl in Hd. rewrite Hd.
  apply foldl_merge_below_capacity. by rewrite (fixes_length ws fs).
Qed.

(** ** The claims on the history *)

(** C1: along every run of successful refresh cycles from the empty
    history, the frame never holds more than 20 rows and never the same
    (timestamp, latitude, longitude, altitude) twice; after 25 successful
    cycles whose timestamps differ pairwise it holds the fixes of the last
    20 cycles, in their order, and none of the first 5. *)
Theorem history_bounded_and_unique ws fs :
  cycle_result <$> ws = Fix <$> fs →
  (∀ n, ∃ s, main_loop (take n ws) session_start = Returns s ∧
             length (tracking_data s) ≤ 20 ∧ NoDup (tracking_data s)) ∧
  (length ws = 25 → NoDup (timestamp <$> fs) →
   ∃ s, main_loop ws session_start = Returns s ∧
        tracking_data s = drop 5 fs ∧
        length (tracking_data s) = 20 ∧
        ∀ f, f ∈ take 5 fs → f ∉ tracking_data s).
Proof.
  intros Hfix. split.
  - intros n.
    destruct (main_loop_fixes (take n ws) (take n fs) session_start)
      as (s & Hs & Hd); [by apply fixes_take|].
    exists s. split; [done|]. rewrite Hd. simpl.
    destruct (foldl_merge_valid [] (take n fs)) as [Hnd Hlen];
      [constructor|simpl; lia|done].
  - intros Hlen Hts. apply NoDup_fmap_1 in Hts.
    destruct (main_loop_fixes ws fs session_start) as (s & Hs & Hd); [done|].
    exists s. split; [done|]. simpl in Hd.
    rewrite foldl_merge_distinct in Hd by done.
    apply fixes_length in Hfix. unfold tail in Hd.
    replace (length fs - 20) with 5 in Hd by lia.
    rewrite Hd. split; [done|]. split; [rewrite length_drop; lia|].
    intros f Hin Hin'. rewrite <-(take_drop 5 fs) in Hts.
    apply NoDup_app in Hts as (_ & Hdisj & _). by apply (Hdisj f).
Qed.

(** C3, where the code departs from it: a cycle in which the request
    fails, the station is not found or the propagator raises leaves the
    frame as it was, row for row, so that a first cycle that produces F1
    and such a second cycle leave exactly [F1]; but a cycle in which the
    propagation fails numerically goes on with the fix that is not a
    number and appends it to the frame like any other fix. *)
Theorem failed_cycle_history (isnan : Reading → bool) w s kind :
  ascii_response w = true →
  cycle_error isnan w = Some kind →
  match cycle_result w with
  | Fails _ =>
      tracking_data (final (update_position w s)) = tracking_data s ∧
      ∀ w1 f1, cycle_result w1 = Fix f1 →
               tracking_data (final (main_loop [w1; w] session_start)) = [f1]
  | Fix f =>
      kind = Invalid ∧ nan_fix isnan f = true ∧
      (f ∉ tracking_data s →
       last (tracking_data (final (update_position w s))) = Some f ∧
       tracking_data (final (update_position w s)) ≠ tracking_data s)
  end.
Proof.
  intros _ Herr. unfold cycle_error in Herr.
  destruct (cycle_result w) as [f|kind'] eqn:Hres.
  - destruct (nan_fix isnan f) eqn:Hnan; [|done]. injection Herr as <-.
    split; [done|]. split; [done|]. intros Hnew.
    rewrite (update_position_fix w s f Hres). simpl.
    pose proof (last_merge_new (tracking_data s) f Hnew) as Hlast.
    split; [done|]. intros Heq. rewrite Heq in Hlast.
    apply last_Some in Hlast as [l' Hl']. apply Hnew. rewrite Hl'.
    set_solver.
  - assert (∀ s0, tracking_data (final (update_position w s0)) =
                  tracking_data s0) as Hkeep.
    { intros s0. pose proof (update_position_fails w s0 kind' Hres) as Hout.
      destruct kind'; [destruct Hout as [msg ->]|rewrite Hout
                      |destruct Hout as [exc ->]]; done. }
    split; [apply Hkeep|]. intros w1 f1 Hfix. simpl.
    rewrite (update_position_fix w1 session_start f1 Hfix).
    match goal with |- context [update_position w ?s0] =>
      specialize (Hkeep s0); destruct (update_position w s0) end; done.
Qed.

(** C4, as the code has it: on a frame without repetition and of at most
    20 rows, a successful cycle leaves the frame unchanged when the new
    fix is already in it (the earlier row stays where it is and the
    appended one is dropped), and otherwise appends the fix and keeps the
    last 20 rows.  This is the reference algorithm, order included, when
    the fix is new, and a rearrangement of its result in every case. *)
Theorem merge_keeps_first_occurrence w s f :
  cycle_result w = Fix f →
  NoDup (tracking_data s) → length (tracking_data s) ≤ 20 →
  let df := tracking_data s in
  let df' := tracking_data (final (update_position w s)) in
  df' = (if decide (f ∈ df) then df else tail 20 (df ++ [f])) ∧
  (f ∉ df → df' = merge_reference 20 df f) ∧
  df' ≡ₚ merge_reference 20 df f.
Proof.
  intros Hfix Hnd Hlen. simpl. rewrite (update_position_fix w s f Hfix).
  simpl. destruct (decide (f ∈ tracking_data s)) as [Hin|Hin].
  - rewrite merge_present by done. split; [done|]. split; [done|].
    rewrite merge_reference_present by done.
    apply NoDup_Permutation; [done| |].
    + apply NoDup_app. split; [by apply NoDup_filter|].
      split; [|apply NoDup_singleton].
      intros r Hr%list_elem_of_filter. set_solver.
    + intros r. rewrite elem_of_app, list_elem_of_filter.
      destruct (decide (r = f)); set_solver.
  - rewrite merge_fresh, merge_reference_fresh by done. done.
Qed.

(** C5: two successful cycles in a row that produce the same fix leave,
    from any state of the frame, exactly one row equal to that fix. *)
Theorem same_fix_twice_kept_once w1 w2 s f :
  cycle_result w1 = Fix f → cycle_result w2 = Fix f →
  ∃ s', main_loop [w1; w2] s = Returns s' ∧
        filter (λ r, r = f) (tracking_data s') = [f].
Proof.
  intros H1 H2. simpl. rewrite (update_position_fix w1 s f H1).
  rewrite (update_position_fix w2 _ f H2). simpl.
  eexists. split; [done|]. simpl.
  apply filter_eq_NoDup; [apply NoDup_merge|].
  apply elem_of_merge_new; [apply NoDup_merge|apply length_merge].
Qed.

(** C9, as the code has it: after fewer than 20 successful cycles from the
    empty history the frame holds one row per distinct fix, in the order
    in which the fixes first came; it has one row per cycle when the
    fixes differ pairwise, and a cycle that repeats an earlier fix adds
    no row. *)
Theorem history_length_below_capacity ws fs :
  cycle_result <$> ws = Fix <$> fs → length ws < 20 →
  ∃ s, main_loop ws session_start = Returns s ∧
       tracking_data s = drop_duplicates fs ∧
       (NoDup fs → length (tracking_data s) = length ws) ∧
       (∀ k f, fs !! k = Some f → f ∈ take k fs →
          tracking_data (final (main_loop (take (S k) ws) session_start)) =
          tracking_data (final (main_loop (take k ws) session_start))).
Proof.
  intros Hfix Hlen.
  destruct (main_loop_below_capacity ws fs Hfix) as (s & Hs & Hd); [lia|].
  exists s. split; [done|]. split; [done|]. split.
  - intros Hnd. rewrite Hd, drop_duplicates_NoDup by done.
    by apply fixes_length.
  - intros k f Hk Hin.
    destruct (main_loop_below_capacity (take k ws) (take k fs))
      as (s1 & Hs1 & Hd1); [by apply fixes_take|rewrite length_take; lia|].
    destruct (main_loop_below_capacity (take (S k) ws) (take (S k) fs))
      as (s2 & Hs2 & Hd2); [by apply fixes_take|rewrite length_take; lia|].
    rewrite Hs1, Hs2. simpl. rewrite Hd1, Hd2.
    rewrite (take_S_r fs k f Hk), drop_duplicates_snoc_any.
    by rewrite decide_True, app_nil_r.
Qed.

(** C10: when [fetch_iss_tle] returns [None], [update_position] returns
    with the page as the fetch left it: the frame, the map, the telemetry
    panel and the table are those of before the cycle. *)
Theorem failed_fetch_updates_nothing w s s1 :
  fetch_iss_tle (response w) s = (None, s1) →
  update_position w s = Returns s1 ∧
  tracking_data s1 = tracking_data s ∧
  map_placeholder s1 = map_placeholder s ∧
  telemetry_placeholder s1 = telemetry_placeholder s ∧
  table_placeholder s1 = table_placeholder s.
Proof.
  intros Hfetch. unfold update_position. rewrite Hfetch. split; [done|].
  unfold fetch_iss_tle in Hfetch.
  destruct (response w); simplify_eq/=; done.
Qed.

(** C2, where the code departs from it: a failed request and a feed
    without the station end the cycle normally, but an exception raised by
    [get_current_iss_position] leaves [update_position] and with it the
    loop, so that no later cycle runs. *)
Theorem cycle_failure_outcome w s kind :
  cycle_result w = Fails kind →
  match kind with
  | Transport | NotFound => ∃ s', update_position w s = Returns s'
  | Invalid =>
      ∃ exc, update_position w s = Escapes exc s ∧
             ∀ ws, main_loop (w :: ws) s = Escapes exc s
  end.
Proof.
  intros Hfail. pose proof (update_position_fails w s kind Hfail) as Hout.
  destruct kind.
  - destruct Hout as [msg ->]. by eexists.
  - rewrite Hout. by eexists.
  - destruct Hout as [exc Hout]. exists exc. split; [done|].
    intros ws. simpl. by rewrite Hout.
Qed.

End HistoryFacts.

(** ** The history claims on the sample worlds *)

Lemma history_after_25_cycles :
  ∃ s, main_loop (good_world <$> times25) session_start = Returns s ∧
       tracking_data s = drop 5 (fix_at <$> times25) ∧
       length (tracking_data s) = 20 ∧
       ∀ f, f ∈ take 5 (fix_at <$> times25) → f ∉ tracking_data s.
Proof.
  refine (proj2 (history_bounded_and_unique
                   (good_world <$> times25) (fix_at <$> times25) _) _ _).
  - vm_compute. reflexivity.
  - reflexivity.
  - apply (bool_decide_unpack _). vm_compute. exact I.
Defined.

(** C3: the propagation fails numerically in the first cycle of a
    session; the frame, empty before, holds the fix that is not a number
    afterwards. *)
Lemma failed_cycle_history_nan :
  Invalid = Invalid ∧ nan_fix is_none (nan_row 1) = true ∧
  (nan_row 1 ∉ tracking_data (@session_start (option Z)) →
   last (tracking_data
           (final (update_position (nan_world 1) session_start))) =
     Some (nan_row 1) ∧
   tracking_data (final (update_position (nan_world 1) session_start)) ≠
     tracking_data session_start).
Proof.
  exact (failed_cycle_history is_none (nan_world 1) session_start Invalid
           eq_refl eq_refl).
Defined.

Example nan_fix_is_appended :
  cycle_error is_none (nan_world 1) = Some Invalid ∧
  update_position (nan_world 1) session_start =
    Returns (mkDashboard [nan_row 1] (Some [nan_row 1]) (Some (nan_row 1))
                         (Some [nan_row 1]) []).
Proof. vm_compute. by split. Qed.

(** C4: the third of the cycles 1, 2, 1 meets a frame that has its fix
    already; the code leaves the frame as it is, the reference algorithm
    moves the fix to the end. *)
Lemma merge_differs_from_reference :
  let df := [fix_at 1; fix_at 2] in
  tracking_data
    (final (main_loop [good_world 1; good_world 2] session_start)) = df ∧
  merge df (fix_at 1) = [fix_at 1; fix_at 2] ∧
  merge_reference 20 df (fix_at 1) = [fix_at 2; fix_at 1] ∧
  merge df (fix_at 1) ≠ merge_reference 20 df (fix_at 1).
Proof. vm_compute. repeat split; discriminate. Qed.

Lemma merge_keeps_first_occurrence_present :
  let s := final (main_loop [good_world 1; good_world 2] session_start) in
  let df := tracking_data s in
  let df' := tracking_data (final (update_position (good_world 1) s)) in
  df' = (if decide (fix_at 1 ∈ df) then df else tail 20 (df ++ [fix_at 1])) ∧
  (fix_at 1 ∉ df → df' = merge_reference 20 df (fix_at 1)) ∧
  df' ≡ₚ merge_reference 20 df (fix_at 1).
Proof.
  apply (merge_keeps_first_occurrence (good_world 1) _ (fix_at 1)).
  - vm_compute. reflexivity.
  - apply (bool_decide_unpack _). vm_compute. exact I.
  - vm_compute. lia.
Defined.

Lemma same_fix_twice_kept_once_sample :
  ∃ s', main_loop [good_world 7; good_world 7] session_start = Returns s' ∧
        filter (λ r, r = fix_at 7) (tracking_data s') = [fix_at 7].
Proof.
  apply (same_fix_twice_kept_once (good_world 7) (good_world 7)
           session_start (fix_at 7)); vm_compute; reflexivity.
Defined.

(** C9: two successful cycles that produce the same fix leave one row. *)
Lemma repeated_fix_counts_once :
  let ws := [good_world 1; good_world 1] in
  length ws < 20 ∧
  cycle_result <$> ws = Fix <$> [fix_at 1; fix_at 1] ∧
  main_loop ws session_start =
    Returns (mkDashboard [fix_at 1] (Some [fix_at 1]) (Some (fix_at 1))
                         (Some [fix_at 1]) []) ∧
  length (tracking_data (final (main_loop ws session_start))) ≠ length ws.
Proof.
  simpl length at 1. split; [lia|]. vm_compute.
  repeat split; discriminate.
Qed.

Lemma history_length_below_capacity_sample :
  ∃ s, main_loop (good_world <$> [1; 2; 1; 3]%Z) session_start = Returns s ∧
       tracking_data s = drop_duplicates (fix_at <$> [1; 2; 1; 3]%Z) ∧
       (NoDup (fix_at <$> [1; 2; 1; 3]%Z) →
        length (tracking_data s) = length (good_world <$> [1; 2; 1; 3]%Z)) ∧
       (∀ k f, (fix_at <$> [1; 2; 1; 3]%Z) !! k = Some f →
          f ∈ take k (fix_at <$> [1; 2; 1; 3]%Z) →
          tracking_data
            (final (main_loop (take (S k) (good_world <$> [1; 2; 1; 3]%Z))
                      session_start)) =
          tracking_data
            (final (main_loop (take k (good_world <$> [1; 2; 1; 3]%Z))
                      session_start))).
Proof.
  apply (history_length_below_capacity _ (fix_at <$> [1; 2; 1; 3]%Z)).
  - vm_compute. reflexivity.
  - vm_compute. lia.
Defined.

Lemma failed_fetch_updates_nothing_down :
  let s := final (update_position (good_world 1) session_start) in
  let s1 := st_error (py "Error fetching TLE data: Read timed out.") s in
  update_position down_world s = Returns s1 ∧
  tracking_data s1 = tracking_data s ∧
  map_placeholder s1 = map_placeholder s ∧
  telemetry_placeholder s1 = telemetry_placeholder s ∧
  table_placeholder s1 = table_placeholder s.
Proof.
  apply (failed_fetch_updates_nothing down_world). vm_compute. reflexivity.
Defined.

Lemma propagation_error_escapes :
  ∃ exc, update_position garbled_world session_start =
           Escapes exc session_start ∧
         ∀ ws, main_loop (garbled_world :: ws) session_start =
               Escapes exc session_start.
Proof.
  exact (cycle_failure_outcome garbled_world session_start Invalid eq_refl).
Defined.

(** The four sample worlds, one per way a cycle can go. *)
Example sample_cycle_results :
  cycle_result (good_world 1) = Fix (fix_at 1) ∧
  cycle_result down_world = Fails Transport ∧
  cycle_result empty_world = Fails NotFound ∧
  cycle_result garbled_world = Fails Invalid.
Proof. vm_compute. repeat split. Qed.

(** ** The script run and its cycles *)

Section ScriptFacts.

Context {Reading : Type} `{!EqDecision Reading}.

Implicit Types (df fs table : DataFrame Reading) (r f : PositionFix Reading).
Implicit Types (w : World Reading) (ws : list (World Reading)).
Implicit Types (s : Dashboard Reading).
Implicit Types (session : option (DataFrame Reading)).

Lemma main_loop_app ws1 ws2 s :
  main_loop (ws1 ++ ws2) s =
  match main_loop ws1 s with
  | Returns s' => main_loop ws2 s'
  | Escapes exc s' => Escapes exc s'
  end.
Proof.
  revert s. induction ws1 as [|w ws1 IH]; intros s; [done|].
  simpl. destruct (update_position w s); [apply IH|done].
Qed.

(** The button and the check box only choose which cycles are run: the
    cycle of the button, if pressed, and then those of the loop, if on. *)
Lemma main_cycles session (update_now auto_update : bool) w ws :
  main session update_now auto_update w ws =
  main_loop ((if update_now then [w] else []) ++
             (if auto_update then ws else [])) (page_start session).
Proof.
  unfold main. rewrite main_loop_app.
  destruct update_now; simpl.
  - destruct (update_position w (page_start session)); [|done].
    by destruct auto_update.
  - by destruct auto_update.
Qed.

(** What every cycle keeps, a run keeps. *)
Lemma main_loop_invariant (I : Dashboard Reading → Prop) :
  (∀ w s, I s → I (final (update_position w s))) →
  ∀ ws s, I s → I (final (main_loop ws s)).
Proof.
  intros Hstep ws. induction ws as [|w ws IH]; intros s Hs; [done|].
  simpl. specialize (Hstep w s Hs).
  destruct (update_position w s) as [s'|exc s']; [by apply IH|done].
Qed.

(** A failed cycle touches nothing but the error boxes. *)
Lemma update_position_failed w s kind :
  cycle_result w = Fails kind →
  tracking_data (final (update_position w s)) = tracking_data s ∧
  map_placeholder (final (update_position w s)) = map_placeholder s ∧
  telemetry_placeholder (final (update_position w s)) =
    telemetry_placeholder s ∧
  table_placeholder (final (update_position w s)) = table_placeholder s.
Proof.
  intros Hfail. pose proof (update_position_fails w s kind Hfail) as Hout.
  destruct kind; [destruct Hout as [msg ->]|rewrite Hout
                 |destruct Hout as [exc ->]]; done.
Qed.

Lemma cycle_result_cases w :
  (∃ f, cycle_result w = Fix f) ∨ (∃ kind, cycle_result w = Fails kind).
Proof. destruct (cycle_result w); [left|right]; by eexists. Qed.

Lemma update_position_valid w s :
  valid_frame (tracking_data s) →
  valid_frame (tracking_data (final (update_position w s))).
Proof.
  intros Hvalid. destruct (cycle_result_cases w) as [[f Hfix]|[kind Hfail]].
  - rewrite (update_position_fix w s f Hfix). simpl.
    split; [apply NoDup_merge|apply length_merge].
  - by destruct (update_position_failed w s kind Hfail) as (-> & _).
Qed.

Lemma update_position_views w s :
  valid_frame (tracking_data s) → views_consistent s →
  views_consistent (final (update_position w s)).
Proof.
  intros [Hnd Hlen] Hviews.
  destruct (cycle_result_cases w) as [[f Hfix]|[kind Hfail]].
  - rewrite (update_position_fix w s f Hfix). right. simpl.
    repeat split. exists f. split; [done|]. by apply elem_of_merge_new.
  - destruct (update_position_failed w s kind Hfail)
      as (Hd & Hmap & Htel & Htab).
    unfold views_consistent. by rewrite Hd, Hmap, Htel, Htab.
Qed.

Lemma update_position_errors w s :
  errors (final (update_position w s)) =
  errors s ++ option_list (error_box w).
Proof.
  unfold update_position, fetch_iss_tle, error_box.
  destruct (response w) as [text|msg]; simpl; [|done].
  rewrite app_nil_r.
  destruct (scan_text text) as [[line1 line2]|]; [|done].
  by destruct (get_current_iss_position w line1 line2).
Qed.

Lemma update_position_escapes w s :
  (∃ exc s', update_position w s = Escapes exc s') ↔
  cycle_result w = Fails Invalid.
Proof.
  unfold update_position, cycle_result, fetch_iss_tle.
  destruct (response w) as [text|msg]; simpl.
  - destruct (scan_text text) as [[line1 line2]|].
    + destruct (get_current_iss_position w line1 line2);
        split; try done; [by intros (? & ? & ?)|by eexists _, _].
    + split; [by intros (? & ? & ?)|done].
  - split; [by intros (? & ? & ?)|done].
Qed.

Lemma rows_not_marked_sublist seen df :
  rows_not_marked df (duplicated_from seen df) `sublist_of` df.
Proof.
  revert seen. induction df as [|x df IH]; intros seen; [done|].
  rewrite rows_not_marked_cons. destruct (decide (x ∈ seen)).
  - by apply sublist_cons.
  - by apply sublist_skip.
Qed.

Lemma merge_sublist df f : merge df f `sublist_of` df ++ [f].
Proof.
  unfold merge, concat. etrans; [apply sublist_drop|].
  apply rows_not_marked_sublist.
Qed.

(** The page after a run of successful cycles shows the last fix. *)
Lemma main_loop_fixes_telemetry ws fs s :
  cycle_result <$> ws = Fix <$> fs →
  ∃ s', main_loop ws s = Returns s' ∧
        tracking_data s' = foldl merge (tracking_data s) fs ∧
        telemetry_placeholder s' =
          match last fs with
          | Some f => Some f
          | None => telemetry_placeholder s
          end.
Proof.
  revert fs s. induction ws as [|w ws IH]; intros [|f fs] s Heq;
    simplify_eq/=; [by eexists|].
  rewrite (update_position_fix w s f) by done.
  destruct (IH fs (mkDashboard (merge (tracking_data s) f)
    (Some (merge (tracking_data s) f)) (Some f)
    (Some (merge (tracking_data s) f)) (errors s)))
    as (s' & Hs' & Hd & Ht); [done|].
  exists s'. split; [done|]. split; [done|]. rewrite Ht. simpl.
  rewrite last_cons. by destruct (last fs).
Qed.

Lemma tail_snoc_below n df f :
  length df < n → tail n (df ++ [f]) = df ++ [f].
Proof. intros. apply tail_short. rewrite length_app. simpl. lia. Qed.

Lemma tail_snoc_full n df f :
  0 < n → length df = n → tail n (df ++ [f]) = drop 1 df ++ [f].
Proof.
  intros Hn Hlen. unfold tail. rewrite length_app. simpl.
  replace (length df + 1 - n) with 1 by lia.
  rewrite drop_app_le by lia. done.
Qed.

Lemma ordered_rows_NoDup fs :
  StronglySorted (λ a b, (timestamp a < timestamp b)%Z) fs → NoDup fs.
Proof.
  induction 1 as [|f fs Hfs IH Hf]; constructor; [|done].
  intros Hin. rewrite Forall_forall in Hf. specialize (Hf f Hin). lia.
Qed.

Lemma ordered_rows_drop n fs :
  StronglySorted (λ a b, (timestamp a < timestamp b)%Z) fs →
  StronglySorted (λ a b, (timestamp a < timestamp b)%Z) (drop n fs).
Proof.
  intros Hfs. rewrite <-(take_drop n fs) in Hfs.
  by apply StronglySorted_app_1_r in Hfs.
Qed.

Lemma last_tail n fs : 0 < n → last (tail n fs) = last fs.
Proof.
  intros Hn. destruct fs as [|f fs _] using rev_ind; [done|].
  unfold tail. rewrite length_app, drop_app_le by (simpl; lia).
  by rewrite !last_snoc.
Qed.

Lemma ordered_rows_inj df a b :
  StronglySorted (λ a b, (timestamp a < timestamp b)%Z) df →
  a ∈ df → b ∈ df → timestamp a = timestamp b → a = b.
Proof.
  induction 1 as [|x df Hdf IH Hx]; [set_solver|].
  rewrite Forall_forall in Hx.
  intros [->|Ha]%elem_of_cons [->|Hb]%elem_of_cons Heq; [done| | |by apply IH].
  - specialize (Hx b Hb). lia.
  - specialize (Hx a Ha). lia.
Qed.

Lemma Sorted_weaken {A} (R1 R2 : relation A) (l : list A) :
  (∀ a b, R1 a b → R2 a b) → Sorted R1 l → Sorted R2 l.
Proof.
  intros Himpl. induction 1 as [|x l Hl IH Hx]; constructor; [done|].
  destruct Hx; constructor. by apply Himpl.
Qed.

(** A frame in the order of its timestamps has one newest-first
    listing, its reverse. *)
Lemma newest_first_reverse df table :
  StronglySorted (λ a b, (timestamp a < timestamp b)%Z) df →
  newest_first df table → table = reverse df.
Proof.
  intros Hdf [Hperm Hsorted].
  assert (Transitive (λ a b : PositionFix Reading,
                        (timestamp b ≤ timestamp a)%Z)) as Htrans.
  { intros a b c ??. lia. }
  apply (Sorted_unique_strong (λ a b, (timestamp b ≤ timestamp a)%Z)).
  - intros a b Ha Hb Hab Hba. rewrite Hperm in Ha.
    rewrite elem_of_reverse in Hb.
    apply (ordered_rows_inj df); [done..|lia].
  - done.
  - apply StronglySorted_Sorted, Sorted_reverse in Hdf.
    eapply Sorted_weaken; [|exact Hdf]. unfold flip. intros; lia.
  - by rewrite reverse_Permutation.
Qed.

(** ** Properties of the script run *)

(** X1: a run of the script that starts from a session frame without
    repetition and of at most 20 rows ends with such a frame, whatever
    the button and the check box and however each cycle ends. *)
Theorem main_keeps_frame_valid session (update_now auto_update : bool) w ws :
  valid_frame (tracking_data (page_start session)) →
  valid_frame
    (tracking_data (final (main session update_now auto_update w ws))).
Proof.
  intros Hvalid. rewrite main_cycles.
  apply (main_loop_invariant (λ s, valid_frame (tracking_data s)));
    [apply update_position_valid|done].
Qed.

(** X2: whatever frame the session holds, repetitions and more than 20
    rows included, one successful cycle leaves a frame without repetition
    and of at most 20 rows. *)
Theorem cycle_restores_valid_frame w s f :
  cycle_result w = Fix f →
  valid_frame (tracking_data (final (update_position w s))).
Proof.
  intros Hfix. rewrite (update_position_fix w s f Hfix). simpl.
  split; [apply NoDup_merge|apply length_merge].
Qed.

(** X3: at the end of a run of the script the three placeholders are
    either all empty, or the map and the table show the frame of the
    session as it then is and the telemetry panel shows one of its rows;
    failed cycles in between do not break this. *)
Theorem main_views_consistent session (update_now auto_update : bool) w ws :
  valid_frame (tracking_data (page_start session)) →
  views_consistent (final (main session update_now auto_update w ws)).
Proof.
  intros Hvalid. rewrite main_cycles.
  apply (main_loop_invariant
           (λ s, valid_frame (tracking_data s) ∧ views_consistent s)).
  - intros w' s [Hv Hc]. split;
      [by apply update_position_valid|by apply update_position_views].
  - split; [done|]. by left.
Qed.

(** X4: the error boxes on the page after a run are, in order, one per
    failed request among the cycles that were run; a feed without the
    station and a propagation error add none. *)
Theorem error_boxes_are_failed_requests ws s :
  errors (final (main_loop ws s)) =
  errors s ++ omap error_box (cycles_run ws).
Proof.
  revert s. induction ws as [|w ws IH]; intros s; [by rewrite app_nil_r|].
  cbn [main_loop]. pose proof (update_position_errors w s) as Herr.
  pose proof (update_position_escapes w s) as Hesc.
  destruct (update_position w s) as [s'|exc s'] eqn:Hout.
  - assert (cycle_result w ≠ Fails Invalid) as Hne.
    { intros Hinv. apply Hesc in Hinv as (? & ? & ?). done. }
    assert (cycles_run (w :: ws) = w :: cycles_run ws) as ->.
    { simpl. destruct (cycle_result w) as [|[]]; done. }
    rewrite IH. simpl in Herr. rewrite Herr, <-app_assoc. f_equal.
    simpl. by destruct (error_box w).
  - assert (cycle_result w = Fails Invalid) as Hinv.
    { apply Hesc. by eexists _, _. }
    simpl. rewrite Hinv. simpl in Herr. rewrite Herr. simpl.
    by destruct (error_box w).
Qed.

(** X5: a successful cycle whose fix is not in the frame appends it as
    the last row; when the frame is full the oldest row, and only it, is
    removed. *)
Theorem new_fix_is_appended w s f :
  cycle_result w = Fix f →
  valid_frame (tracking_data s) → f ∉ tracking_data s →
  (length (tracking_data s) < 20 →
   tracking_data (final (update_position w s)) = tracking_data s ++ [f]) ∧
  (length (tracking_data s) = 20 →
   tracking_data (final (update_position w s)) =
     drop 1 (tracking_data s) ++ [f]).
Proof.
  intros Hfix [Hnd Hlen] Hnew. rewrite (update_position_fix w s f Hfix).
  simpl. rewrite merge_fresh by done. split; intros Hl.
  - by apply tail_snoc_below.
  - apply tail_snoc_full; [lia|done].
Qed.

(** X6: a successful cycle never reorders the rows and never adds a row
    other than its fix: the new frame is the old one followed by the fix,
    with some rows left out. *)
Theorem cycle_keeps_row_order w s f :
  cycle_result w = Fix f →
  tracking_data (final (update_position w s))
    `sublist_of` tracking_data s ++ [f].
Proof.
  intros Hfix. rewrite (update_position_fix w s f Hfix). simpl.
  apply merge_sublist.
Qed.

(** X7: after a successful cycle, a further successful cycle with the
    same fix changes nothing at all on the page. *)
Theorem repeated_cycle_changes_nothing w1 w2 s f :
  cycle_result w1 = Fix f → cycle_result w2 = Fix f →
  valid_frame (tracking_data s) →
  update_position w2 (final (update_position w1 s)) =
  Returns (final (update_position w1 s)).
Proof.
  intros H1 H2 [Hnd Hlen]. rewrite (update_position_fix w1 s f H1). simpl.
  rewrite (update_position_fix w2 _ f H2). simpl.
  rewrite (merge_present (merge (tracking_data s) f) f);
    [done|apply NoDup_merge|apply length_merge|by apply elem_of_merge_new].
Qed.

(** X8: when the timestamps of successive successful cycles increase,
    the frame stays in the order of its timestamps, its last row is the
    fix of the last cycle, which is also the one of the telemetry panel,
    and the newest-first listing of the table is the frame reversed. *)
Theorem history_is_chronological ws fs :
  cycle_result <$> ws = Fix <$> fs →
  StronglySorted (λ a b, (timestamp a < timestamp b)%Z) fs →
  ∃ s, main_loop ws session_start = Returns s ∧
       StronglySorted (λ a b, (timestamp a < timestamp b)%Z)
         (tracking_data s) ∧
       last (tracking_data s) = last fs ∧
       telemetry_placeholder s = last fs ∧
       ∀ table, newest_first (tracking_data s) table →
                table = reverse (tracking_data s).
Proof.
  intros Hfix Hfs.
  destruct (main_loop_fixes_telemetry ws fs session_start Hfix)
    as (s & Hs & Hd & Ht).
  exists s. split; [done|]. simpl in Hd, Ht.
  rewrite foldl_merge_distinct in Hd by by apply ordered_rows_NoDup.
  assert (StronglySorted (λ a b, (timestamp a < timestamp b)%Z)
            (tracking_data s)) as Hsorted.
  { rewrite Hd. by apply ordered_rows_drop. }
  split; [done|]. split; [rewrite Hd; apply last_tail; lia|].
  split; [rewrite Ht; by destruct (last fs)|].
  intros table. by apply newest_first_reverse.
Qed.

(** X17: on a frame without repetition and of at most 20 rows a cycle,
    however it ends, never makes the frame shorter, adds at most one row,
    and removes no row other than the oldest. *)
Theorem cycle_loses_at_most_oldest_row w s :
  valid_frame (tracking_data s) →
  length (tracking_data s)
    ≤ length (tracking_data (final (update_position w s))) ∧
  length (tracking_data (final (update_position w s)))
    ≤ length (tracking_data s) + 1 ∧
  ∀ r, r ∈ drop 1 (tracking_data s) →
       r ∈ tracking_data (final (update_position w s)).
Proof.
  intros [Hnd Hlen].
  assert (∀ r, r ∈ drop 1 (tracking_data s) → r ∈ tracking_data s) as Hold.
  { intros r Hr. eapply elem_of_sublist; [done|apply sublist_drop]. }
  destruct (cycle_result_cases w) as [[f Hfix]|[kind Hfail]].
  - rewrite (update_position_fix w s f Hfix). simpl.
    destruct (decide (f ∈ tracking_data s)) as [Hin|Hnew].
    { rewrite merge_present by done. repeat split; [lia..|done]. }
    rewrite merge_fresh by done.
    destruct (decide (length (tracking_data s) < 20)) as [Hlt|Hfull].
    + rewrite tail_snoc_below by done. rewrite length_app. simpl.
      repeat split; [lia..|]. intros r Hr. set_solver.
    + rewrite tail_snoc_full by lia. rewrite length_app, length_drop. simpl.
      repeat split; [lia..|]. intros r Hr. set_solver.
  - destruct (update_position_failed w s kind Hfail) as (-> & _).
    repeat split; [lia..|done].
Qed.

End ScriptFacts.

(** ** More on the scan *)

Section ScanFacts.

Implicit Types (c : ascii) (s t p q line : str) (ls : list str).

Lemma lstrip_head s :
  lstrip s = [] ∨ ∃ c s', lstrip s = c :: s' ∧ is_space c = false.
Proof.
  induction s as [|c s IH]; [by left|]. simpl.
  destruct (is_space c) eqn:Hc; [done|]. right. by exists c, s.
Qed.

Lemma lstrip_snoc_solid s c :
  is_space c = false → lstrip (s ++ [c]) = lstrip s ++ [c].
Proof.
  intros Hc. induction s as [|x s IH]; simpl; [by rewrite Hc|].
  by destruct (is_space x).
Qed.

(** A stripped text is empty, or starts and ends with no white space. *)
Lemma strip_ends s :
  strip s = [] ∨
  ∃ c s' c', strip s = c :: s' ∧ is_space c = false ∧
             last (c :: s') = Some c' ∧ is_space c' = false.
Proof.
  unfold strip. destruct (lstrip_head s) as [->|(c & t & -> & Hc)];
    [by left|].
  right. unfold rstrip. simpl rev. rewrite lstrip_snoc_solid by done.
  rewrite rev_app_distr. simpl.
  destruct (lstrip_head (rev t)) as [->|(d & y & -> & Hd)].
  - by exists c, [], c.
  - exists c, (rev (d :: y)), d. split; [done|]. split; [done|].
    split; [|done]. simpl rev. by rewrite app_comm_cons, last_snoc.
Qed.

Lemma strip_idemp s : strip (strip s) = strip s.
Proof.
  destruct (strip_ends s) as [->|(c & s' & c' & -> & Hc & Hlast & Hc')];
    [done|].
  by apply (strip_solid_ends c s' c').
Qed.

Lemma elem_of_strip c s : c ∈ strip s → c ∈ s.
Proof.
  intros Hc. destruct (strip_split s) as (p & q & _ & _ & Heq).
  rewrite Heq. set_solver.
Qed.

Lemma blank_strip s : blank s ↔ strip s = [].
Proof.
  split.
  - intros Hs. unfold strip. by rewrite (lstrip_all_blank s).
  - intros Hs. destruct (strip_split s) as (p & q & Hp & Hq & Heq).
    rewrite Heq, Hs. by apply Forall_app.
Qed.

Lemma padded_strip s : padded s (strip s).
Proof.
  destruct (strip_split s) as (p & q & Hp & Hq & Heq). by exists p, q.
Qed.

Lemma line_matches_strip line : line_matches (strip line) = line_matches line.
Proof. symmetry. apply line_matches_padded, padded_strip. Qed.

Lemma padded_not_blank r line : padded r line → ¬ blank line → ¬ blank r.
Proof.
  intros (p & q & _ & _ & ->) Hline Hr. apply Hline.
  apply Forall_app in Hr as [_ Hr]. by apply Forall_app in Hr as [Hr _].
Qed.

Lemma split_no_sep sep s : Forall (λ l, sep ∉ l) (split sep s).
Proof.
  induction s as [|c s IH]; [repeat constructor; set_solver|].
  destruct (split_nonempty sep s) as (l & ls' & Hs).
  rewrite (split_cons sep c s l ls' Hs). rewrite Hs in IH.
  apply Forall_cons in IH as [Hl Hls].
  destruct (Ascii.eqb_spec c sep) as [->|Hne].
  - repeat constructor; [set_solver|done..].
  - constructor; [|done]. set_solver.
Qed.

Lemma split_snoc_view sep s : ∃ ls l, split sep s = ls ++ [l].
Proof.
  destruct (split_nonempty sep s) as (l0 & ls0 & ->).
  destruct ls0 as [|x ls0 _] using rev_ind; [by exists [], l0|].
  by exists (l0 :: ls0), x.
Qed.

(** The last line the scan runs over is not blank, unless the text is. *)
Lemma feed_lines_last text :
  strip text ≠ [] → ∃ ls l, feed_lines text = ls ++ [l] ∧ ¬ blank l.
Proof.
  intros Hne. unfold feed_lines.
  destruct (strip_ends text) as [?|(c & s' & c' & Heq & _ & Hlast & Hc')];
    [done|].
  rewrite Heq. apply last_Some in Hlast as [t Ht]. rewrite Ht.
  destruct (split_snoc_view newline t) as (ls & l & Hsplit).
  assert (split newline [c'] = [[c']]) as Hc.
  { simpl. destruct (Ascii.eqb_spec c' newline) as [->|]; [done|done]. }
  rewrite (split_app newline t [c'] ls l [c'] [] Hsplit Hc).
  exists ls, (l ++ [c']). split; [done|].
  intros Hblank. apply Forall_app in Hblank as [_ Hblank].
  inversion Hblank; congruence.
Qed.

Lemma scan_text_lines_Some text a b :
  scan_text text = Some (a, b) →
  ∃ i hdr l1 l2 k r,
    text_lines text !! i = Some hdr ∧ line_matches hdr = true ∧
    (∀ j l, j < i → text_lines text !! j = Some l →
            line_matches l = false) ∧
    text_lines text !! (i + 1) = Some l1 ∧
    text_lines text !! (i + 2) = Some l2 ∧
    a = strip l1 ∧ b = strip l2 ∧
    i + 2 ≤ k ∧ text_lines text !! k = Some r ∧ ¬ blank r.
Proof.
  unfold scan_text. simpl.
  intros (j & hdr' & l1' & l2' & Hj & Hm & Hfirst & H1 & H2 & -> & ->)
    %scan_from_Some.
  simpl in H1, H2.
  destruct (text_lines_feed_lines text)
    as (before & kept & after & Hlines & Hpad & Hbefore & Hafter).
  assert (strip text ≠ []) as Hne.
  { intros Hnil. apply lookup_lt_Some in H2. unfold feed_lines in H2.
    rewrite Hnil in H2. simpl in H2. lia. }
  destruct (feed_lines_last text Hne) as (fl & l & Hfl & Hl).
  assert (feed_lines text !! length fl = Some l) as Hlast.
  { rewrite Hfl. by apply list_lookup_middle. }
  destruct (Forall2_lookup_r _ _ _ _ _ Hpad Hj) as (hdr & Hi & Hhdr).
  destruct (Forall2_lookup_r _ _ _ _ _ Hpad H1) as (l1 & Hl1 & Hp1).
  destruct (Forall2_lookup_r _ _ _ _ _ Hpad H2) as (l2 & Hl2 & Hp2).
  destruct (Forall2_lookup_r _ _ _ _ _ Hpad Hlast) as (r & Hr & Hpr).
  pose proof (lookup_lt_Some _ _ _ Hi).
  pose proof (lookup_lt_Some _ _ _ Hl1).
  pose proof (lookup_lt_Some _ _ _ Hl2).
  pose proof (lookup_lt_Some _ _ _ Hr).
  pose proof (lookup_lt_Some _ _ _ H2) as Hlen2.
  rewrite Hfl, length_app in Hlen2. simpl in Hlen2.
  assert (∀ n x, kept !! n = Some x →
            text_lines text !! (length before + n) = Some x) as Hraw.
  { intros n x Hn. pose proof (lookup_lt_Some _ _ _ Hn).
    rewrite Hlines, lookup_app_r, lookup_app_l by lia.
    by replace (length before + n - length before) with n by lia. }
  exists (length before + j), hdr, l1, l2, (length before + length fl), r.
  rewrite <-!Nat.add_assoc.
  split; [by apply Hraw|].
  split; [by rewrite (line_matches_padded _ _ Hhdr)|].
  split.
  { intros j' l0 Hlt Hl0. rewrite Hlines in Hl0.
    destruct (decide (j' < length before)) as [Hin|Hout].
    - rewrite lookup_app_l in Hl0 by done. apply line_matches_blank.
      by apply (Forall_lookup_1 _ _ _ _ Hbefore Hl0).
    - rewrite lookup_app_r, lookup_app_l in Hl0 by lia.
      destruct (Forall2_lookup_l _ _ _ _ _ Hpad Hl0) as (l0' & Hl0' & Hp0).
      rewrite (line_matches_padded _ _ Hp0).
      apply (Hfirst (j' - length before)); [lia|done]. }
  split; [by apply Hraw|]. split; [by apply Hraw|].
  split; [symmetry; by apply strip_padded|].
  split; [symmetry; by apply strip_padded|].
  split; [lia|]. split; [by apply Hraw|]. by apply (padded_not_blank r l).
Qed.

Lemma scan_text_first_lines text i hdr l1 l2 k r :
  text_lines text !! i = Some hdr → line_matches hdr = true →
  (∀ j l, j < i → text_lines text !! j = Some l → line_matches l = false) →
  text_lines text !! (i + 1) = Some l1 →
  text_lines text !! (i + 2) = Some l2 →
  i + 2 ≤ k → text_lines text !! k = Some r → ¬ blank r →
  scan_text text = Some (strip l1, strip l2).
Proof.
  intros Hi Hm Hfirst H1 H2 Hk Hr Hblank.
  destruct (text_lines_feed_lines text)
    as (before & kept & after & Hlines & Hpad & Hbefore & Hafter).
  rewrite Hlines in Hi, Hfirst, H1, H2, Hr.
  assert (length before ≤ i) as Hlo.
  { destruct (decide (length before ≤ i)); [done|].
    rewrite lookup_app_l in Hi by lia.
    rewrite (line_matches_blank hdr) in Hm; [done|].
    by apply (Forall_lookup_1 _ _ _ _ Hbefore Hi). }
  assert (k < length before + length kept) as Hhi.
  { destruct (decide (k < length before + length kept)); [done|].
    rewrite lookup_app_r, lookup_app_r in Hr by lia.
    destruct Hblank. by apply (Forall_lookup_1 _ _ _ _ Hafter Hr). }
  rewrite lookup_app_r, lookup_app_l in Hi, H1, H2 by lia.
  destruct (Forall2_lookup_l _ _ _ _ _ Hpad Hi) as (hdr' & Hi' & Hhdr).
  destruct (Forall2_lookup_l _ _ _ _ _ Hpad H1) as (l1' & H1' & Hl1').
  destruct (Forall2_lookup_l _ _ _ _ _ Hpad H2) as (l2' & H2' & Hl2').
  rewrite (strip_padded _ _ Hl1'), (strip_padded _ _ Hl2').
  unfold scan_text. simpl.
  apply (scan_from_first _ 0 _ (i - length before) hdr').
  - done.
  - by rewrite <-(line_matches_padded _ _ Hhdr).
  - intros j' l Hlt Hl.
    destruct (Forall2_lookup_r _ _ _ _ _ Hpad Hl) as (r' & Hr' & Hrl).
    rewrite <-(line_matches_padded _ _ Hrl).
    apply (Hfirst (length before + j')); [lia|].
    rewrite lookup_app_r, lookup_app_l
      by (try apply lookup_lt_Some in Hr'; lia).
    by replace (length before + j' - length before) with j' by lia.
  - by replace (0 + (i - length before) + 1)
      with (i + 1 - length before) by lia.
  - by replace (0 + (i - length before) + 2)
      with (i + 2 - length before) by lia.
Qed.

Lemma scan_text_transfer t1 t2 a b :
  Forall2 (λ r l, strip r = strip l) (text_lines t1) (text_lines t2) →
  scan_text t1 = Some (a, b) → scan_text t2 = Some (a, b).
Proof.
  intros Hrel
    (i & hdr & l1 & l2 & k & r & Hi & Hm & Hfirst & H1 & H2 & -> & -> &
     Hk & Hr & Hblank)%scan_text_lines_Some.
  destruct (Forall2_lookup_l _ _ _ _ _ Hrel Hi) as (hdr' & Hi' & Hhdr).
  destruct (Forall2_lookup_l _ _ _ _ _ Hrel H1) as (l1' & H1' & Hl1).
  destruct (Forall2_lookup_l _ _ _ _ _ Hrel H2) as (l2' & H2' & Hl2).
  destruct (Forall2_lookup_l _ _ _ _ _ Hrel Hr) as (r' & Hr' & Hrr).
  rewrite Hl1, Hl2.
  apply (scan_text_first_lines t2 i hdr' l1' l2' k r'); try done.
  - by rewrite <-line_matches_strip, <-Hhdr, line_matches_strip.
  - intros j l Hlt Hl.
    destruct (Forall2_lookup_r _ _ _ _ _ Hrel Hl) as (l0 & Hl0 & Hll).
    rewrite <-line_matches_strip, <-Hll, line_matches_strip.
    by apply (Hfirst j).
  - rewrite blank_strip, <-Hrr, <-blank_strip. done.
Qed.

Lemma text_lines_to_crlf text :
  Forall2 (λ r l, ∃ q, blank q ∧ r = l ++ q)
    (text_lines (to_crlf text)) (text_lines text).
Proof.
  unfold text_lines. induction text as [|c t IH].
  - repeat constructor. exists []. split; [apply blank_nil|done].
  - destruct (split_nonempty newline t) as (l & ls & Ht).
    destruct (split_nonempty newline (to_crlf t)) as (l' & ls' & Ht').
    rewrite Ht, Ht' in IH. apply Forall2_cons in IH as [Hl Hls].
    rewrite (split_cons newline c t l ls Ht).
    unfold to_crlf. simpl flat_map. fold (to_crlf t).
    destruct (Ascii.eqb c newline) eqn:Hc.
    + simpl app.
      rewrite (split_cons newline carriage_return _ [] (l' :: ls')).
      * simpl. constructor; [|by constructor].
        exists [carriage_return]. split; [|done]. by repeat constructor.
      * by rewrite (split_cons newline newline _ l' ls' Ht').
    + simpl app. rewrite (split_cons newline c _ l' ls' Ht'), Hc.
      constructor; [|done]. destruct Hl as (q & Hq & ->). by exists q.
Qed.

Lemma option_pair_eq (o1 o2 : option (str * str)) :
  (∀ a b, o1 = Some (a, b) → o2 = Some (a, b)) →
  (∀ a b, o2 = Some (a, b) → o1 = Some (a, b)) → o1 = o2.
Proof.
  intros H12 H21. destruct o1 as [[a b]|].
  - symmetry. by apply H12.
  - destruct o2 as [[a b]|]; [|done]. by apply H21.
Qed.

Lemma same_strip_flip (l1 l2 : list str) :
  Forall2 (λ r l, strip r = strip l) l1 l2 →
  Forall2 (λ r l, strip r = strip l) l2 l1.
Proof.
  intros Hrel. apply Forall2_flip. eapply Forall2_impl; [exact Hrel|]. done.
Qed.

Lemma scan_text_finds text a b :
  scan_text text = Some (a, b) ↔ scan_finds (text_lines text) a b.
Proof.
  split; [apply scan_text_lines_Some|].
  intros (i & hdr & l1 & l2 & k & r & Hi & Hm & Hfirst & H1 & H2 & -> & -> &
          Hk & Hr & Hblank).
  by apply (scan_text_first_lines text i hdr l1 l2 k r).
Qed.

Lemma scan_finds_app_l (lines more : list str) a b :
  scan_finds lines a b → scan_finds (lines ++ more) a b.
Proof.
  intros (i & hdr & l1 & l2 & k & r & Hi & Hm & Hfirst & H1 & H2 & Ha & Hb &
          Hk & Hr & Hblank).
  exists i, hdr, l1, l2, k, r.
  pose proof (lookup_lt_Some _ _ _ Hr).
  rewrite !lookup_app_l by lia. repeat split; try done.
  intros j l Hlt Hl. rewrite lookup_app_l in Hl by lia. by apply (Hfirst j).
Qed.

Lemma scan_finds_app_r (skipped lines : list str) a b :
  Forall (λ l, line_matches l = false) skipped →
  scan_finds (skipped ++ lines) a b ↔ scan_finds lines a b.
Proof.
  intros Hskip. split.
  - intros (i & hdr & l1 & l2 & k & r & Hi & Hm & Hfirst & H1 & H2 & Ha &
            Hb & Hk & Hr & Hblank).
    assert (length skipped ≤ i) as Hlo.
    { destruct (decide (length skipped ≤ i)); [done|].
      rewrite lookup_app_l in Hi by lia.
      pose proof (Forall_lookup_1 _ _ _ _ Hskip Hi) as Hno. simpl in Hno.
      congruence. }
    rewrite lookup_app_r in Hi, H1, H2, Hr by lia.
    exists (i - length skipped), hdr, l1, l2, (k - length skipped), r.
    replace (i - length skipped + 1) with (i + 1 - length skipped) by lia.
    replace (i - length skipped + 2) with (i + 2 - length skipped) by lia.
    repeat split; try done; [|lia].
    intros j l Hlt Hl. apply (Hfirst (length skipped + j)); [lia|].
    rewrite lookup_app_r by lia.
    by replace (length skipped + j - length skipped) with j by lia.
  - intros (i & hdr & l1 & l2 & k & r & Hi & Hm & Hfirst & H1 & H2 & Ha &
            Hb & Hk & Hr & Hblank).
    exists (length skipped + i), hdr, l1, l2, (length skipped + k), r.
    rewrite <-!Nat.add_assoc, !lookup_app_r by lia.
    replace (length skipped + i - length skipped) with i by lia.
    replace (length skipped + (i + 1) - length skipped) with (i + 1) by lia.
    replace (length skipped + (i + 2) - length skipped) with (i + 2) by lia.
    replace (length skipped + k - length skipped) with k by lia.
    repeat split; try done; [|lia].
    intros j l Hlt Hl.
    destruct (decide (j < length skipped)) as [Hin|Hout].
    + rewrite lookup_app_l in Hl by done.
      by apply (Forall_lookup_1 _ _ _ _ Hskip Hl).
    + rewrite lookup_app_r in Hl by lia.
      apply (Hfirst (j - length skipped)); [lia|done].
Qed.

(** The lines of two texts joined by a line feed. *)
Lemma text_lines_join s t :
  text_lines (s ++ newline :: t) = text_lines s ++ text_lines t.
Proof.
  unfold text_lines.
  destruct (split_snoc_view newline s) as (ls & l & Hs).
  destruct (split_nonempty newline t) as (l' & ls' & Ht).
  assert (split newline (newline :: t) = [] :: l' :: ls') as Hnt.
  { by rewrite (split_cons newline newline t l' ls' Ht). }
  rewrite (split_app newline s _ ls l [] (l' :: ls') Hs Hnt).
  by rewrite Hs, Ht, app_nil_r, <-app_assoc.
Qed.

(** ** Properties of the scan *)

(** X9: the scan finds a pair exactly when the first matching line of the
    text has two lines after it and the second of them is not in the run
    of blank lines that ends the text; the pair is then these two lines,
    stripped. *)
Theorem scan_text_on_lines text a b :
  isascii text = true →
  scan_text text = Some (a, b) ↔
  ∃ i hdr l1 l2 k r,
    text_lines text !! i = Some hdr ∧ line_matches hdr = true ∧
    (∀ j l, j < i → text_lines text !! j = Some l →
            line_matches l = false) ∧
    text_lines text !! (i + 1) = Some l1 ∧
    text_lines text !! (i + 2) = Some l2 ∧
    a = strip l1 ∧ b = strip l2 ∧
    i + 2 ≤ k ∧ text_lines text !! k = Some r ∧ ¬ blank r.
Proof.
  intros _. split; [apply scan_text_lines_Some|].
  intros (i & hdr & l1 & l2 & k & r & Hi & Hm & Hfirst & H1 & H2 & -> & -> &
          Hk & Hr & Hblank).
  by apply (scan_text_first_lines text i hdr l1 l2 k r).
Qed.

(** X10: the two lines [fetch_iss_tle] returns have no white space at
    either end, a carriage return included, and no line feed inside. *)
Theorem scan_returns_clean_lines text a b :
  scan_text text = Some (a, b) →
  strip a = a ∧ strip b = b ∧ (newline ∉ a) ∧ (newline ∉ b).
Proof.
  unfold scan_text. simpl.
  intros (j & hdr & l1 & l2 & _ & _ & _ & H1 & H2 & -> & ->)%scan_from_Some.
  pose proof (split_no_sep newline (strip text)) as Hsep.
  rewrite !strip_idemp. split; [done|]. split; [done|].
  split; intros Hin%elem_of_strip.
  - by apply (Forall_lookup_1 _ _ _ _ Hsep H1).
  - by apply (Forall_lookup_1 _ _ _ _ Hsep H2).
Qed.

(** X11: white space before and after the text of the feed, blank lines
    included, does not change what the scan returns. *)
Theorem scan_ignores_surrounding_space p text q :
  blank p → blank q → scan_text (p ++ text ++ q) = scan_text text.
Proof.
  intros Hp Hq. unfold scan_text, feed_lines.
  rewrite (strip_padded (p ++ text ++ q) text); [done|]. by exists p, q.
Qed.

(** X12: what the scan returns depends on the lines of the text only
    through their stripped forms: two texts with as many lines, equal
    line by line once stripped, give the same result. *)
Theorem scan_depends_on_stripped_lines t1 t2 :
  Forall2 (λ r l, strip r = strip l) (text_lines t1) (text_lines t2) →
  scan_text t1 = scan_text t2.
Proof.
  intros Hrel. apply option_pair_eq; intros a b.
  - by apply scan_text_transfer.
  - by apply scan_text_transfer, same_strip_flip.
Qed.

(** X13: a feed with CRLF line ends gives the same two lines as the same
    feed with LF line ends. *)
Theorem scan_accepts_crlf text :
  scan_text (to_crlf text) = scan_text text.
Proof.
  assert (Forall2 (λ r l, strip r = strip l)
            (text_lines (to_crlf text)) (text_lines text)) as Hrel.
  { eapply Forall2_impl; [apply text_lines_to_crlf|].
    intros r l (q & Hq & ->). apply strip_padded. exists [], q.
    split; [apply blank_nil|done]. }
  apply option_pair_eq; intros a b.
  - by apply scan_text_transfer.
  - by apply scan_text_transfer, same_strip_flip.
Qed.

(** X14: once the scan has found the two lines, whatever the feed lists
    on further lines does not change them. *)
Theorem scan_ignores_later_lines text more a b :
  scan_text text = Some (a, b) →
  scan_text (text ++ newline :: more) = Some (a, b).
Proof.
  rewrite !scan_text_finds, text_lines_join. apply scan_finds_app_l.
Qed.

(** X15: lines before the station that contain neither ISS nor ZARYA, in
    any case, are passed over: the scan gives what it gives on the rest of
    the text. *)
Theorem scan_skips_other_objects before text :
  isascii before = true →
  Forall (λ l, line_matches l = false) (text_lines before) →
  scan_text (before ++ newline :: text) = scan_text text.
Proof.
  intros _ Hskip.
  assert (∀ a b, scan_text (before ++ newline :: text) = Some (a, b) ↔
                 scan_text text = Some (a, b)) as Hiff.
  { intros a b. rewrite !scan_text_finds, text_lines_join.
    by apply scan_finds_app_r. }
  apply option_pair_eq; intros a b; by apply Hiff.
Qed.

End ScanFacts.

(** ** The further properties on the sample feeds and worlds *)

Lemma main_keeps_frame_valid_sample :
  valid_frame
    (tracking_data
       (final (main (Some [fix_at 1]) true true down_world
                 [good_world 2; empty_world; garbled_world; good_world 3]))).
Proof.
  apply (main_keeps_frame_valid (Some [fix_at 1])). split.
  - apply (bool_decide_unpack _). vm_compute. exact I.
  - vm_compute. lia.
Defined.

Lemma cycle_restores_valid_frame_sample :
  valid_frame
    (tracking_data
       (final (update_position (good_world 2)
                 (page_start (Some [fix_at 1; fix_at 1]))))).
Proof.
  apply (cycle_restores_valid_frame (good_world 2) _ (fix_at 2)).
  vm_compute. reflexivity.
Defined.

Lemma main_views_consistent_sample :
  views_consistent
    (final (main (Some [fix_at 1]) true true down_world
              [good_world 2; empty_world; garbled_world; good_world 3])).
Proof.
  apply (main_views_consistent (Some [fix_at 1])). split.
  - apply (bool_decide_unpack _). vm_compute. exact I.
  - vm_compute. lia.
Defined.

Lemma new_fix_is_appended_sample :
  let s := page_start (Some [fix_at 1; fix_at 2]) in
  (length (tracking_data s) < 20 →
   tracking_data (final (update_position (good_world 3) s)) =
     tracking_data s ++ [fix_at 3]) ∧
  (length (tracking_data s) = 20 →
   tracking_data (final (update_position (good_world 3) s)) =
     drop 1 (tracking_data s) ++ [fix_at 3]).
Proof.
  apply (new_fix_is_appended (good_world 3) _ (fix_at 3)).
  - vm_compute. reflexivity.
  - split; [apply (bool_decide_unpack _); vm_compute; exact I|].
    vm_compute. lia.
  - apply (bool_decide_unpack _). vm_compute. exact I.
Defined.

Lemma cycle_keeps_row_order_sample :
  tracking_data
    (final (update_position (good_world 1)
              (page_start (Some [fix_at 1; fix_at 2]))))
    `sublist_of` [fix_at 1; fix_at 2] ++ [fix_at 1].
Proof.
  refine (cycle_keeps_row_order (good_world 1)
            (page_start (Some [fix_at 1; fix_at 2])) (fix_at 1) _).
  vm_compute. reflexivity.
Defined.

Lemma repeated_cycle_changes_nothing_sample :
  update_position (good_world 4)
    (final (update_position (good_world 4) (page_start (Some [fix_at 1])))) =
  Returns
    (final (update_position (good_world 4) (page_start (Some [fix_at 1])))).
Proof.
  apply (repeated_cycle_changes_nothing _ _ _ (fix_at 4));
    try (vm_compute; reflexivity).
  split; [apply (bool_decide_unpack _); vm_compute; exact I|].
  vm_compute. lia.
Defined.

Lemma history_is_chronological_sample :
  ∃ s, main_loop (good_world <$> times25) session_start = Returns s ∧
       StronglySorted (λ a b, (timestamp a < timestamp b)%Z)
         (tracking_data s) ∧
       last (tracking_data s) = last (fix_at <$> times25) ∧
       telemetry_placeholder s = last (fix_at <$> times25) ∧
       ∀ table, newest_first (tracking_data s) table →
                table = reverse (tracking_data s).
Proof.
  apply (history_is_chronological (good_world <$> times25)
           (fix_at <$> times25)).
  - vm_compute. reflexivity.
  - apply (bool_decide_unpack _). vm_compute. exact I.
Defined.

Lemma scan_returns_clean_lines_sample :
  strip zarya_line1 = zarya_line1 ∧ strip zarya_line2 = zarya_line2 ∧
  (newline ∉ zarya_line1) ∧ (newline ∉ zarya_line2).
Proof.
  apply (scan_returns_clean_lines (to_crlf zarya_feed)).
  vm_compute. reflexivity.
Defined.

Lemma scan_ignores_surrounding_space_sample :
  scan_text (py "
   " ++ zarya_feed ++ py "

") = scan_text zarya_feed.
Proof.
  apply scan_ignores_surrounding_space; repeat constructor.
Defined.

Lemma scan_depends_on_stripped_lines_sample :
  scan_text (py "  ISS (ZARYA)
	1 25544U
2 25544   ") =
  scan_text (py "ISS (ZARYA)
1 25544U
2 25544").
Proof.
  apply scan_depends_on_stripped_lines. vm_compute.
  repeat constructor.
Defined.

Lemma cycle_loses_at_most_oldest_row_sample :
  let s := page_start (Some (fix_at <$> drop 5 times25)) in
  length (tracking_data s)
    ≤ length (tracking_data (final (update_position (good_world 50) s))) ∧
  length (tracking_data (final (update_position (good_world 50) s)))
    ≤ length (tracking_data s) + 1 ∧
  ∀ r, r ∈ drop 1 (tracking_data s) →
       r ∈ tracking_data (final (update_position (good_world 50) s)).
Proof.
  apply (cycle_loses_at_most_oldest_row (good_world 50)). split.
  - apply (bool_decide_unpack _). vm_compute. exact I.
  - vm_compute. lia.
Defined.

Lemma scan_ignores_later_lines_sample :
  scan_text (truncated_feed ++ newline :: zarya_line2 ++ newline ::
             py "CSS (TIANHE)") =
  Some (zarya_line1, zarya_line2).
Proof.
  apply (scan_ignores_later_lines (truncated_feed ++ newline :: zarya_line2)).
  vm_compute. reflexivity.
Defined.

Lemma scan_skips_other_objects_sample :
  scan_text (py "CSS (TIANHE)
1 48274U
2 48274" ++ newline :: zarya_feed) = scan_text zarya_feed.
Proof.
  apply scan_skips_other_objects; [reflexivity|]. vm_compute.
  repeat constructor.
Defined.

Lemma scan_text_on_lines_zarya :
  scan_text zarya_feed = Some (zarya_line1, zarya_line2) ↔
  ∃ i hdr l1 l2 k r,
    text_lines zarya_feed !! i = Some hdr ∧ line_matches hdr = true ∧
    (∀ j l, j < i → text_lines zarya_feed !! j = Some l →
            line_matches l = false) ∧
    text_lines zarya_feed !! (i + 1) = Some l1 ∧
    text_lines zarya_feed !! (i + 2) = Some l2 ∧
    zarya_line1 = strip l1 ∧ zarya_line2 = strip l2 ∧
    i + 2 ≤ k ∧ text_lines zarya_feed !! k = Some r ∧ ¬ blank r.
Proof.
  apply (scan_text_on_lines zarya_feed). reflexivity.
Defined.
